(** * gosym: symbol lines, kind masks and the syntax-tree traversal

    A shallow embedding of [exp/cmd/gosym/gosym.go].  Go strings are byte
    sequences and are modelled by [string] (a sequence of 8-bit [ascii]);
    [uint] values are modelled by [Z] with the wrap-around at [uintSize]
    bits written out; a function that can return an error returns a pair
    or a sum, a function that can panic returns an [outcome]. *)

From Stdlib Require Import ZArith List String Ascii Bool Lia Permutation.
From Stdlib Require Import Numbers.DecimalString Numbers.DecimalPos.
Import ListNotations.
Local Open Scope string_scope.
Local Open Scope Z_scope.

(** ** Strings *)

Module Str.

(** Every byte of the string satisfies [p]. *)
Fixpoint all (p : ascii -> bool) (s : string) : bool :=
  match s with
  | EmptyString => true
  | String c s' => p c && all p s'
  end.

(** The first byte of the string, when there is one, fails [p]. *)
Definition stops (p : ascii -> bool) (s : string) : bool :=
  match s with
  | EmptyString => true
  | String c _ => negb (p c)
  end.

End Str.

(** ** Object kinds *)

(** Modelled from the spec: [ast.ObjKind] (the [ast] package is not part
    of the source file), the enumeration of object kinds: Const, Type, Var
    and Func, the four the tool names, next to the "bad" and "package"
    kinds. *)
Inductive ObjKind := Bad | Pkg | Con | Typ | Var | Fun.

Definition ObjKind_eqb (a b : ObjKind) : bool :=
  match a, b with
  | Bad, Bad | Pkg, Pkg | Con, Con | Typ, Typ | Var, Var | Fun, Fun => true
  | _, _ => false
  end.

(** Modelled from the spec: the value of a kind constant, [uint(c)] in
    the source; the constants are numbered in the order of their
    declaration. *)
Definition ObjKind_val (c : ObjKind) : Z :=
  match c with
  | Bad => 0 | Pkg => 1 | Con => 2 | Typ => 3 | Var => 4 | Fun => 5
  end.

(** Modelled from the spec: [ObjKind.String] of the [ast] package, the
    serialized kind token ("one of the four kind tokens
    (const/type/var/func)"). *)
Definition ObjKind_String (c : ObjKind) : string :=
  match c with
  | Bad => "bad" | Pkg => "package"
  | Con => "const" | Typ => "type" | Var => "var" | Fun => "func"
  end.

(** [var objKinds = map[string]ast.ObjKind{...}]: the map literal, as the
    list of its entries, and the lookup [objKinds[k]] with its [ok]. *)
Definition objKinds_entries : list (string * ObjKind) :=
  [ ("const", Con); ("type", Typ); ("var", Var); ("func", Fun) ].

Fixpoint map_lookup (m : list (string * ObjKind)) (k : string) : option ObjKind :=
  match m with
  | [] => None
  | (k', v) :: m' => if String.eqb k' k then Some v else map_lookup m' k
  end.

Definition objKinds (k : string) : option ObjKind := map_lookup objKinds_entries k.

(** ** Errors and panics *)

(** [fmt.Errorf(format, arg)]: the error value is kept structured, the
    format string together with its single operand (rendered by [%q]). *)
Inductive error := Errorf (format : string) (arg : string).

Inductive outcome (A : Type) :=
| Ret (a : A)
| Panic (msg : string).
Arguments Ret {A} a.
Arguments Panic {A} msg.

(** ** Kind masks *)

Definition uintSize : Z := 64.

(** [x << n] on [uint]. *)
Definition uint_shl (x n : Z) : Z := Z.shiftl x n mod 2 ^ uintSize.

(** [strings.Split(s, sep)] for a one-byte separator: the pieces between
    the separators, one more than there are separators. *)
Fixpoint strings_Split (s : string) (sep : ascii) : list string :=
  match s with
  | EmptyString => [""]
  | String c s' =>
      if Ascii.eqb c sep then "" :: strings_Split s' sep
      else match strings_Split s' sep with
           | t :: ts => String c t :: ts
           | [] => [String c ""]
           end
  end.

(** [strings.Join(ks, sep)] for a one-byte separator. *)
Fixpoint strings_Join (ks : list string) (sep : ascii) : string :=
  match ks with
  | [] => ""
  | [k] => k
  | k :: ks' => k ++ String sep (strings_Join ks' sep)
  end.

(** The loop of [parseKindMask] over the split tokens. *)
Fixpoint parseKindMask_loop (ks : list string) (mask : Z) : Z * option error :=
  match ks with
  | [] => (mask, None)
  | k :: ks' =>
      match objKinds k with
      | Some c => parseKindMask_loop ks' (Z.lor mask (uint_shl 1 (ObjKind_val c)))
      | None => (0, Some (Errorf "unknown type kind %q" k))
      end
  end.

Definition parseKindMask (kinds : string) : Z * option error :=
  parseKindMask_loop (strings_Split kinds ",") 0.

(** The bit a kind occupies in a mask, [1 << uint(kind)]. *)
Definition kind_bit (c : ObjKind) : Z := uint_shl 1 (ObjKind_val c).

(** ** Regular expressions

    The fragment of Go's [regexp] syntax that [linePat] uses.  A match is
    the one a backtracking search finds first (leftmost, then by
    preference: greedy repetition, an optional part tried before it is
    skipped), which is what [regexp] documents for its submatches.  Every
    class of [linePat] is an ASCII set or the complement of one, so
    matching byte by byte and rune by rune pick the same submatches. *)

Inductive citem :=
| ILit (c : ascii)      (* a literal byte *)
| IDigit                (* \d: 0-9 *)
| ISpace.               (* \s: \t \n \f \r and space *)

Inductive cclass :=
| CAny                                      (* . : any byte but \n *)
| CSet (negated : bool) (items : list citem).   (* [...] and [^...] *)

Inductive regex :=
| RBol                          (* ^ *)
| REol                          (* $ *)
| RLit (l : string)             (* literal text *)
| RClass (c : cclass)           (* one byte of a class *)
| RPlus (c : cclass)            (* c+ *)
| RStar (c : cclass)            (* c* *)
| RQuest (r : regex)            (* r? *)
| RCat (r1 r2 : regex)          (* r1 r2 *)
| RGroup (n : nat) (r : regex). (* (r), the n-th capturing group *)

Definition is_digit (a : ascii) : bool :=
  let n := nat_of_ascii a in (48 <=? n)%nat && (n <=? 57)%nat.

Definition is_space (a : ascii) : bool :=
  let n := nat_of_ascii a in
  (n =? 9)%nat || (n =? 10)%nat || (n =? 12)%nat || (n =? 13)%nat || (n =? 32)%nat.

Definition imatch (i : citem) (a : ascii) : bool :=
  match i with
  | ILit c => Ascii.eqb c a
  | IDigit => is_digit a
  | ISpace => is_space a
  end.

Definition cmatch (c : cclass) (a : ascii) : bool :=
  match c with
  | CAny => negb (nat_of_ascii a =? 10)%nat
  | CSet neg items => xorb neg (existsb (fun i => imatch i a) items)
  end.

(** The submatches found so far, latest first; [group m i] is [m[i]] of
    the slice [FindStringSubmatch] returns, the empty string for a group
    that took no part in the match. *)
Definition caps := list (nat * string).

Fixpoint group (m : caps) (i : nat) : string :=
  match m with
  | [] => ""
  | (j, s) :: m' => if (j =? i)%nat then s else group m' i
  end.

(** [strip l s]: [s] without its prefix [l], when it has it. *)
Fixpoint strip (l s : string) : option string :=
  match l, s with
  | EmptyString, _ => Some s
  | String a l', String b s' => if Ascii.eqb a b then strip l' s' else None
  | String _ _, EmptyString => None
  end.

(** Greedy repetition of a class: the longest run first, then shorter
    ones.  The continuation receives the text taken and the text left. *)
Fixpoint star_match (c : cclass) (s : string)
    (k : string -> string -> option caps) : option caps :=
  match s with
  | EmptyString => k "" ""
  | String a s' =>
      if cmatch c a then
        match star_match c s' (fun m rest => k (String a m) rest) with
        | Some r => Some r
        | None => k "" s
        end
      else k "" s
  end.

Definition plus_match (c : cclass) (s : string)
    (k : string -> string -> option caps) : option caps :=
  match s with
  | EmptyString => None
  | String a s' =>
      if cmatch c a then star_match c s' (fun m rest => k (String a m) rest)
      else None
  end.

(** The backtracking matcher: [run r pos s cs k] matches [r] at the front
    of [s], which starts at offset [pos] of the text, and hands the text it
    took, the text left and the submatches to [k]; when [k] fails the next
    way of matching [r] is tried. *)
Fixpoint run (r : regex) (pos : nat) (s : string) (cs : caps)
    (k : string -> string -> caps -> option caps) : option caps :=
  match r with
  | RBol => if (pos =? 0)%nat then k "" s cs else None
  | REol => match s with EmptyString => k "" s cs | String _ _ => None end
  | RLit l => match strip l s with Some rest => k l rest cs | None => None end
  | RClass c =>
      match s with
      | EmptyString => None
      | String a s' => if cmatch c a then k (String a "") s' cs else None
      end
  | RPlus c => plus_match c s (fun m rest => k m rest cs)
  | RStar c => star_match c s (fun m rest => k m rest cs)
  | RQuest r' =>
      match run r' pos s cs k with
      | Some res => Some res
      | None => k "" s cs
      end
  | RCat r1 r2 =>
      run r1 pos s cs (fun m1 s1 cs1 =>
        run r2 (pos + String.length m1)%nat s1 cs1 (fun m2 s2 cs2 =>
          k (m1 ++ m2) s2 cs2))
  | RGroup n r' => run r' pos s cs (fun m rest cs' => k m rest ((n, m) :: cs'))
  end.

(** The search starts at the first offset and moves right until a match
    is found; group 0 is the whole match. *)
Fixpoint find_from (r : regex) (pos : nat) (s : string) : option caps :=
  match run r pos s [] (fun m _ cs => Some ((0%nat, m) :: cs)) with
  | Some cs => Some cs
  | None =>
      match s with
      | EmptyString => None
      | String _ s' => find_from r (S pos) s'
      end
  end.

Definition FindStringSubmatch (r : regex) (s : string) : option caps :=
  find_from r 0 s.

Fixpoint cat (rs : list regex) : regex :=
  match rs with
  | [] => RLit ""
  | [r] => r
  | r :: rs' => RCat r (cat rs')
  end.

Definition cls_d : cclass := CSet false [IDigit].
Definition cls_s : cclass := CSet false [ISpace].
Definition cls_not (items : list citem) : cclass := CSet true items.

(** The text of the pattern that [linePat] compiles. *)
Definition linePat_source : string :=
  "^([^:]+):(\d+):(\d+):\s+([^ ]+)\s+([^\s]+)\s+(local)?([^\s+]+)(\+)?(\s+([^\s].*))?$".

(** [linePat], the syntax tree of [linePat_source]. *)
Definition linePat : regex :=
  cat [ RBol;
        RGroup 1 (RPlus (cls_not [ILit ":"])); RLit ":";
        RGroup 2 (RPlus cls_d); RLit ":";
        RGroup 3 (RPlus cls_d); RLit ":";
        RPlus cls_s;
        RGroup 4 (RPlus (cls_not [ILit " "]));
        RPlus cls_s;
        RGroup 5 (RPlus (cls_not [ISpace]));
        RPlus cls_s;
        RQuest (RGroup 6 (RLit "local"));
        RGroup 7 (RPlus (cls_not [ISpace; ILit "+"]));
        RQuest (RGroup 8 (RLit "+"));
        RQuest (RGroup 9 (RCat (RPlus cls_s)
                            (RGroup 10 (RCat (RClass (cls_not [ISpace])) (RStar CAny)))));
        REol ].

(** ** Positions and numbers *)

(** Modelled from the spec: [token.Position] (the [token] package is not
    part of the source file), a file name with an offset, a line and a
    column. *)
Record Position := mkPosition {
  Filename : string;
  Offset : Z;
  Line : Z;
  Column : Z }.

Definition Position_zero : Position := mkPosition "" 0 0 0.

(** [%d] of an [int]: the number in decimal. *)
Definition itoa (n : Z) : string := NilZero.string_of_int (Z.to_int n).

Definition Position_IsValid (p : Position) : bool := 0 <? Line p.

(** Modelled from the spec: [Position.String] of the [token] package,
    which renders the [<file>:<line>:<col>] of the line grammar and leaves
    out what the position does not have. *)
Definition Position_String (p : Position) : string :=
  let s := Filename p in
  let s :=
    if Position_IsValid p then
      (if String.eqb s "" then s else s ++ ":") ++ itoa (Line p) ++ ":" ++ itoa (Column p)
    else s in
  if String.eqb s "" then "-" else s.

Definition intSize : Z := 64.
Definition maxInt : Z := 2 ^ (intSize - 1) - 1.
Definition minInt : Z := - 2 ^ (intSize - 1).

Definition digit_val (a : ascii) : Z := Z.of_nat (nat_of_ascii a) - 48.

(** The value of a run of decimal digits, [None] at a byte that is not a
    digit. *)
Fixpoint digits_val (acc : Z) (s : string) : option Z :=
  match s with
  | EmptyString => Some acc
  | String a s' =>
      if is_digit a then digits_val (10 * acc + digit_val a) s' else None
  end.

(** [strconv.Atoi]: an optional sign and decimal digits; [None] is its
    error, for text that is not a number or a value out of [int]'s
    range. *)
Definition strconv_Atoi (s : string) : option Z :=
  let signed (neg : bool) (body : string) :=
    match body with
    | EmptyString => None
    | String _ _ =>
        match digits_val 0 body with
        | Some n =>
            let v := if neg then - n else n in
            if (minInt <=? v) && (v <=? maxInt) then Some v else None
        | None => None
        end
    end in
  match s with
  | EmptyString => None
  | String a s' =>
      if Ascii.eqb a "-" then signed true s'
      else if Ascii.eqb a "+" then signed false s'
      else signed false s
  end.

Definition atoi (s : string) : outcome Z :=
  match strconv_Atoi s with
  | Some i => Ret i
  | None => Panic "bad number"
  end.

Definition bind {A B : Type} (x : outcome A) (f : A -> outcome B) : outcome B :=
  match x with
  | Ret a => f a
  | Panic msg => Panic msg
  end.

Notation "x <- e ;; f" := (bind e (fun x => f))
  (at level 61, e at next level, right associativity).

(** ** Symbol lines *)

Record symLine := mkSymLine {
  pos : Position;        (* file address of identifier *)
  exprPkg : string;      (* package containing identifier *)
  referPkg : string;     (* package containing referred-to object *)
  local : bool;          (* identifier is function-local *)
  kind : ObjKind;        (* kind of identifier *)
  definition : bool;     (* line is, or refers to, definition of object *)
  expr : string;         (* expression *)
  exprType : string }.   (* type of expression (unparsed) *)

(** [symLine{}]. *)
Definition symLine_zero : symLine :=
  mkSymLine Position_zero "" "" false Bad false "" "".

Definition parseSymLine (line : string) : outcome (symLine * option error) :=
  match FindStringSubmatch linePat line with
  | None => Ret (symLine_zero, Some (Errorf "invalid line %q" line))
  | Some m =>
      ln <- atoi (group m 2) ;;
      col <- atoi (group m 3) ;;
      match objKinds (group m 7) with
      | None => Ret (symLine_zero, Some (Errorf "invalid kind %q" (group m 7)))
      | Some k =>
          Ret ({| pos := mkPosition (group m 1) 0 ln col;
                  exprPkg := group m 4;
                  referPkg := group m 5;
                  local := String.eqb (group m 6) "local";
                  kind := k;
                  definition := String.eqb (group m 8) "+";
                  expr := "";
                  exprType := if String.eqb (group m 9) "" then "" else group m 10 |},
               None)
      end
  end.

(** [fmt.Sprintf] for the verbs [%v] and [%s], each replaced by the text
    of the next operand: a string itself, a value with a [String] method
    the text the method returns. *)
Fixpoint Sprintf (format : string) (args : list string) : string :=
  match format with
  | EmptyString => ""
  | String c rest =>
      if Ascii.eqb c "%" then
        match rest with
        | String v rest' =>
            match args with
            | a :: args' => a ++ Sprintf rest' args'
            | [] => "%!" ++ String v "(MISSING)" ++ Sprintf rest' []
            end
        | EmptyString => "%!(NOVERB)"
        end
      else String c (Sprintf rest args)
  end.

Definition symLine_String (l : symLine) : string :=
  let local_ := if local l then "local" else "" in
  let def := if definition l then "+" else "" in
  let exprType_ :=
    if (0 <? String.length (exprType l))%nat then " " ++ exprType l else "" in
  Sprintf "%v: %s %s %s %s%s%s%s"
    [ Position_String (pos l); exprPkg l; referPkg l; expr l;
      local_; ObjKind_String (kind l); def; exprType_ ].

(** ** Syntax trees

    The [ast], [token], [types], [parser] and [printer] packages are not
    part of the source file: the trees keep what the tool reads of them,
    and what the tool calls in them is a parameter ([Collaborators]). *)

(** Modelled from the spec: [token.Pos], a position in the file set. *)
Definition Pos := Z.

(** Modelled from the spec: the identity of an [*ast.Object] (two
    pointers are equal when they point to the same object): an object the
    parser or the type checker allocated, or the one [ast.NewObj]
    allocates for the function declaration whose name stands at a
    position. *)
Inductive ObjId :=
| Allocated (addr : nat)
| NewAt (p : Pos).

Definition ObjId_eqb (a b : ObjId) : bool :=
  match a, b with
  | Allocated x, Allocated y => (x =? y)%nat
  | NewAt p, NewAt q => p =? q
  | _, _ => false
  end.

(** Modelled from the spec: [ast.Object], as far as the tool reads it. *)
Record Object := mkObject {
  Obj_id : ObjId;
  Obj_Kind : ObjKind;
  Obj_Name : string }.

(** Modelled from the spec: [ast.Ident]. *)
Record Ident := mkIdent {
  NamePos : Pos;
  Name : string;
  Obj : option Object }.

(** Modelled from the spec: [ast.Node], with the node types the
    traversal tells apart; a node of any other type is an [OtherNode]
    with the children [ast.Walk] visits, in order. *)
Unset Elimination Schemes.
Inductive Node :=
| Ident_ (id : Ident)
| SelectorExpr (X : Node) (Sel : Ident)
| KeyValueExpr (Key Value : Node)
| StarExpr (X : Node)
| ImportSpec (ImportName : option Ident) (Path : string)
| FuncType (Params Results : list Node)
| FuncDecl (Recv : option Node) (FuncName : Ident) (Type_ : Node) (Body : option Node)
| File (PkgName : Ident) (Decls : list Node)
| OtherNode (children : list Node).
Set Elimination Schemes.

(** Modelled from the spec: [types.Type], as far as the tool reads it:
    the node of the type and its kind. *)
Record Type_t := mkType {
  Type_Node : option Node;
  Type_Kind : ObjKind }.

Module Info.

(** [symInfo]. *)
Record symInfo := mk {
  pos : Pos;                  (* position of symbol *)
  expr : Node;                (* expression for symbol *)
  exprType : Type_t;          (* type of expression *)
  referPos : Pos;             (* position of referred-to symbol *)
  referObj : option Object;   (* object referred to *)
  local : bool;               (* whether referred-to object is function-local *)
  universe : bool }.          (* whether referred-to object is in universe *)

End Info.
Abbreviation symInfo := Info.symInfo.

(** What the tool consumes from outside the source file: the flags, and
    the resolver, the file set, the package discovery and the printer. *)
Class Collaborators := {
  verbose : bool;                                (* -v *)
  printType : bool;                              (* -t *)
  all : bool;                                    (* -a *)
  ExprType : Node -> option Object * Type_t;     (* types.ExprType(e, ctxt.importer) *)
  DeclPos : Object -> Pos;                       (* types.DeclPos *)
  Universe_Lookup : string -> option Object;     (* parser.Universe.Lookup *)
  position : Pos -> Position;                    (* types.FileSet.Position *)
  build_Import : string -> option string;        (* build.Import(".", filepath.Dir(file), build.FindOnly) *)
  pretty_String : option Node -> string }.       (* pretty{n}.String() *)

(** Modelled from the spec: [ast.NewObj(kind, name)], a new object,
    here the one allocated for the name at [p]. *)
Definition NewObj (p : Pos) (k : ObjKind) (name : string) : Object :=
  mkObject (NewAt p) k name.

(** [a == b] on [*ast.Object], either of which may be nil. *)
Definition same_object (a b : option Object) : bool :=
  match a, b with
  | None, None => true
  | Some x, Some y => ObjId_eqb (Obj_id x) (Obj_id y)
  | _, _ => false
  end.

Section Traversal.

Context {C : Collaborators}.

(** The callback [visitf]. *)
Variable visitf : symInfo -> bool.

(** [ctxt.visitExpr(visitf, importPath, e, local)]: the value returned and
    the occurrence handed to the callback, when it was called. *)
Definition visitExpr (e : Node) (local : bool) : bool * option symInfo :=
  let p :=
    match e with
    | Ident_ id => NamePos id
    | SelectorExpr _ sel => NamePos sel
    | _ => 0
    end in
  let '(obj, t) := ExprType e in
  match obj with
  | None => (true, None)
  | Some o =>
      let info :=
        if negb (same_object (Universe_Lookup (Obj_Name o)) (Some o))
        then Info.mk p e t (DeclPos o) (Some o) local false
        else Info.mk p e t 0 (Some o) local true in
      (visitf info, Some info)
  end.

(** The state the closure [visit] shares with [visitExprs]: the flag [ok]
    and, for the record, the occurrences the callback has received. *)
Record wstate := mkW {
  ok : bool;
  calls : list symInfo }.

(** [ok = ctxt.visitExpr(visitf, importPath, e, local)]. *)
Definition assign_ok (e : Node) (local : bool) (st : wstate) : wstate :=
  let '(b, call) := visitExpr e local in
  mkW b (calls st ++ match call with Some i => [i] | None => [] end).

(** The binding the [*ast.FuncDecl] case gives the declared name. *)
Definition initBinding (recv : option Node) (name : Ident) : option Object :=
  match recv with
  | None =>
      if String.eqb (Name name) "init"
      then Some (NewObj (NamePos name) Fun "init") else None
  | Some _ => None
  end.

Definition bindName (name : Ident) (b : option Object) : Ident :=
  match b with
  | Some o => mkIdent (NamePos name) (Name name) (Some o)
  | None => name
  end.

Definition is_dot (name : option Ident) : bool :=
  match name with
  | Some id => String.eqb (Name id) "."
  | None => false
  end.

(** [ast.Walk(visit, n)] with the closure [visit] of [visitExprs]
    ([local] is false throughout): the closure runs on [n]; where it
    returns true the children are walked in [ast.Walk]'s order (modelled
    from the spec: depth first, left to right), and the closing
    [visit(nil)] changes nothing. *)
Fixpoint walk (n : Node) (st : wstate) {struct n} : wstate :=
  let walks :=
    fix walks (ns : list Node) (st : wstate) {struct ns} : wstate :=
      match ns with
      | [] => st
      | n' :: ns' => walks ns' (walk n' st)
      end in
  let walk_ident (id : Ident) (st : wstate) : wstate :=
    if negb (ok st) then st else assign_ok (Ident_ id) false st in
  if negb (ok st) then st
  else
    match n with
    | ImportSpec name _ =>
        if is_dot name then mkW false (calls st)
        else match name with
             | Some id => walk_ident id st
             | None => st
             end
    | FuncDecl recv name typ body =>
        let name' := bindName name (initBinding recv name) in
        let st1 := match recv with Some r => walk r st | None => st end in
        let st2 := walk_ident name' st1 in
        let st3 := walk typ st2 in
        match body with Some b => walk b st3 | None => st3 end
    | Ident_ _ => assign_ok n false st
    | KeyValueExpr _ v => walk v st
    | SelectorExpr x _ => assign_ok n false (walk x st)
    | File _ decls => walks decls st
    | StarExpr x => walk x st
    | FuncType params results => walks results (walks params st)
    | OtherNode children => walks children st
    end.

(** [ast.Walk(visit, n)] over a list of nodes, in order. *)
Fixpoint walks (ns : list Node) (st : wstate) : wstate :=
  match ns with
  | [] => st
  | n :: ns' => walks ns' (walk n st)
  end.

(** [ctxt.visitExprs(visitf, importPath, pkg, kindMask)]: the occurrences
    the callback received. *)
Definition visitExprs (importPath : string) (pkg : Node) (kindMask : Z) : list symInfo :=
  calls (walk pkg (mkW true [])).

(** The loop of [main] over the files of one package. *)
Fixpoint visitFiles (importPath : string) (files : list Node) (kindMask : Z) : list symInfo :=
  match files with
  | [] => []
  | f :: fs => visitExprs importPath f kindMask ++ visitFiles importPath fs kindMask
  end.

End Traversal.

Section Printing.

Context {C : Collaborators}.

Definition positionToImportPath (p : Position) : outcome string :=
  if String.eqb (Filename p) "" then Panic "empty file name"
  else match build_Import (Filename p) with
       | Some importPath => Ret importPath
       | None => Panic "cannot reverse-map filename to package"
       end.

Definition depointer (x : option Node) : option Node :=
  match x with
  | Some (StarExpr x') => Some x'
  | _ => x
  end.

(** The [switch] of [visitPrint] on the expression: the name to print, or
    nothing when the function returns from inside the switch. *)
Definition exprName (e : Node) : option string :=
  match e with
  | Ident_ id => Some (Name id)
  | SelectorExpr x sel =>
      let xt := snd (ExprType x) in
      let no_node := match Type_Node xt with None => true | Some _ => false end in
      if no_node && verbose then None
      else
        let name := Name sel in
        Some (if negb (ObjKind_eqb (Type_Kind xt) Pkg)
              then pretty_String (depointer (Type_Node xt)) ++ "." ++ name
              else name)
  | _ => Some ""
  end.

(** [visitPrint(ctxt, info, kindMask)]: the value returned and the line
    printed, if one was. *)
Definition visitPrint (info : symInfo) (kindMask : Z) : outcome (bool * option symLine) :=
  match Info.referObj info with
  | None => Panic "nil pointer dereference"
  | Some obj =>
      if Z.land (uint_shl 1 (ObjKind_val (Obj_Kind obj))) kindMask =? 0 then Ret (true, None)
      else if Info.universe info && negb all then Ret (true, None)
      else
        let eposition := position (Info.pos info) in
        exprPkg_ <- positionToImportPath eposition ;;
        referPkg_ <- (if Info.universe info then Ret "universe"
                      else positionToImportPath (position (Info.referPos info))) ;;
        match exprName (Info.expr info) with
        | None => Ret (true, None)
        | Some name =>
            let line :=
              {| pos := eposition;
                 exprPkg := exprPkg_;
                 referPkg := referPkg_;
                 local := Info.local info;
                 kind := Obj_Kind obj;
                 definition := Info.referPos info =? Info.pos info;
                 expr := name;
                 exprType :=
                   if printType
                   then pretty_String (Type_Node (Info.exprType info))
                   else "" |} in
            Ret (true, Some line)
        end
  end.

(** What [visitPrint] writes to the output: [fmt.Println(line)]. *)
Definition printed (r : outcome (bool * option symLine)) : option string :=
  match r with
  | Ret (_, Some line) => Some (symLine_String line ++ String (ascii_of_nat 10) "")
  | _ => None
  end.

End Printing.

(** ** Shapes of lines

    The definitions the statements below are phrased with. *)

(** The line grammar as the specification words it:
    [<file>:<line>:<col>: <ownerPkg> <referPkg> [local]<expr><kind>[+][ <type>]],
    the marker before the expression and the kind right after it. *)
Definition spec_line (l : symLine) : string :=
  Filename (pos l) ++ ":" ++ itoa (Line (pos l)) ++ ":" ++ itoa (Column (pos l))
  ++ ": " ++ exprPkg l ++ " " ++ referPkg l ++ " "
  ++ (if local l then "local" else "") ++ expr l ++ ObjKind_String (kind l)
  ++ (if definition l then "+" else "")
  ++ (if String.eqb (exprType l) "" then "" else " " ++ exprType l).

(** The bytes the classes of [linePat] tell apart. *)
Definition not_colon (a : ascii) : bool := negb (Ascii.eqb ":" a).
Definition is_blank (a : ascii) : bool := Ascii.eqb " " a.
Definition no_space (a : ascii) : bool := negb (is_space a).
Definition not_newline (a : ascii) : bool := negb (nat_of_ascii a =? 10)%nat.

(** A type text the pattern takes whole: it starts with a byte that is
    not white space and holds no newline. *)
Definition type_text (ty : string) : bool :=
  match ty with
  | EmptyString => true
  | String a ty' => no_space a && Str.all not_newline ty'
  end.

(** The line of the pattern's own grammar. *)
Definition grammar_line (file ln col sp1 owner sp2 refer sp3 : string)
    (loc : bool) (k : ObjKind) (plus : bool) (ty : string) : string :=
  file ++ ":" ++ ln ++ ":" ++ col ++ ":" ++ sp1 ++ owner ++ sp2 ++ refer ++ sp3
  ++ (if loc then "local" else "") ++ ObjKind_String k
  ++ (if plus then "+" else "")
  ++ (if String.eqb ty "" then "" else " " ++ ty).

(** A line to try the serializer and the parser with: the function [Baz]
    of package [q], used in package [p]. *)
Definition line_Baz : symLine :=
  mkSymLine (mkPosition "a.go" 0 1 2) "p" "q" false Fun false "Baz" "".

(** The texts a pattern matches: [lang r pos m rest] says that [r]
    matches the text [m] standing at offset [pos], with [rest] after it. *)
Fixpoint lang (r : regex) (pos : nat) (m rest : string) : Prop :=
  match r with
  | RBol => m = "" /\ pos = 0%nat
  | REol => m = "" /\ rest = ""
  | RLit l => m = l
  | RClass c => exists a, m = String a "" /\ cmatch c a = true
  | RPlus c => m <> "" /\ Str.all (cmatch c) m = true
  | RStar c => Str.all (cmatch c) m = true
  | RQuest r' => m = "" \/ lang r' pos m rest
  | RCat r1 r2 =>
      exists m1 m2, m = m1 ++ m2 /\
        lang r1 pos m1 (m2 ++ rest) /\
        lang r2 (pos + String.length m1)%nat m2 rest
  | RGroup _ r' => lang r' pos m rest
  end.

(** The byte of a kind token: no white space and no [+]. *)
Definition token_byte (a : ascii) : bool := no_space a && negb (Ascii.eqb "+" a).

(** The lines of the pattern, spelled out: file, line and column behind
    colons, then white space, the owner package, white space, the
    referenced package, white space, the optional [local], a token, the
    optional [+], and the optional type text behind white space. *)
Definition line_shape (line : string) : Prop :=
  exists file ln col sp1 owner sp2 refer sp3 loc tok plus ty,
    line = file ++ ":" ++ ln ++ ":" ++ col ++ ":" ++ sp1 ++ owner ++ sp2
           ++ refer ++ sp3 ++ loc ++ tok ++ plus ++ ty /\
    (file <> "" /\ Str.all not_colon file = true) /\
    (ln <> "" /\ Str.all is_digit ln = true) /\
    (col <> "" /\ Str.all is_digit col = true) /\
    (sp1 <> "" /\ Str.all is_space sp1 = true) /\
    (owner <> "" /\ Str.all (fun a => negb (is_blank a)) owner = true) /\
    (sp2 <> "" /\ Str.all is_space sp2 = true) /\
    (refer <> "" /\ Str.all no_space refer = true) /\
    (sp3 <> "" /\ Str.all is_space sp3 = true) /\
    (loc = "" \/ loc = "local") /\
    (tok <> "" /\ Str.all token_byte tok = true) /\
    (plus = "" \/ plus = "+") /\
    (ty = "" \/
     exists sp4 a ty', ty = sp4 ++ String a ty' /\
       sp4 <> "" /\ Str.all is_space sp4 = true /\
       no_space a = true /\ Str.all not_newline ty' = true).

(** The nodes of an optional child. *)
Definition option_nodes (o : option Node) : list Node :=
  match o with
  | Some n => [n]
  | None => []
  end.

(** The declarations that get a binding, as the specification words
    the condition: "a parameterless function declaration named init". *)
Definition spec_init_decl (n : Node) : bool :=
  match n with
  | FuncDecl _ name (FuncType [] _) _ => String.eqb (Name name) "init"
  | _ => false
  end.

(** The binding the traversal gives the name of a declaration. *)
Definition declBinding (n : Node) : option Object :=
  match n with
  | FuncDecl recv name _ _ => initBinding recv name
  | _ => None
  end.

(** Declarations to try the binding with: [func init(a) {}] and the
    method [func (r) init() {}]. *)
Definition init_name : Ident := mkIdent 7 "init" None.

Definition func_init_param : Node :=
  FuncDecl None init_name (FuncType [OtherNode []] []) (Some (OtherNode [])).

Definition method_init : Node :=
  FuncDecl (Some (OtherNode [])) init_name (FuncType [] []) (Some (OtherNode [])).

(** The fields of a line of the pattern's grammar: the file name without
    a colon, the numbers in digits with their values, the packages without
    white space, and blanks between the fields. *)
Definition line_fields (file ln col sp1 owner sp2 refer sp3 : string) (n c : Z) : Prop :=
  (file <> "" /\ Str.all not_colon file = true) /\
  (ln <> "" /\ Str.all is_digit ln = true /\ strconv_Atoi ln = Some n) /\
  (col <> "" /\ Str.all is_digit col = true /\ strconv_Atoi col = Some c) /\
  (sp1 <> "" /\ Str.all is_blank sp1 = true) /\
  (owner <> "" /\ Str.all no_space owner = true) /\
  (sp2 <> "" /\ Str.all is_blank sp2 = true) /\
  (refer <> "" /\ Str.all no_space refer = true) /\
  (sp3 <> "" /\ Str.all is_blank sp3 = true).

(** Collaborators to try the definitions with: every file belongs to the
    package [p], [int] is the one predeclared name, and a selector base
    [pkg] is a package, any other a pointer to the type [T]. *)
Definition int_obj : Object := mkObject (Allocated 1) Typ "int".
Definition T_node : Node := Ident_ (mkIdent 0 "T" None).

Definition demo : Collaborators := {|
  verbose := false;
  printType := true;
  all := true;
  ExprType := fun e =>
    match e with
    | Ident_ id =>
        if String.eqb (Name id) "pkg" then (None, mkType (Some e) Pkg)
        else (Obj id, mkType (Some (StarExpr T_node)) Var)
    | _ => (None, mkType None Bad)
    end;
  DeclPos := fun _ => 3;
  Universe_Lookup := fun name => if String.eqb name "int" then Some int_obj else None;
  position := fun p => mkPosition "a.go" p 1 p;
  build_Import := fun _ => Some "p";
  pretty_String := fun n =>
    match n with
    | Some (Ident_ id) => Name id
    | Some (StarExpr _) => "*"
    | _ => ""
    end |}.

(** Occurrences to try the printing with: the predeclared [int], and
    the field [f] of a variable [v]. *)
Definition info_int : symInfo :=
  Info.mk 5 (Ident_ (mkIdent 5 "int" (Some int_obj))) (mkType None Typ)
    0 (Some int_obj) false true.

Definition f_obj : Object := mkObject (Allocated 2) Var "f".

Definition info_field : symInfo :=
  Info.mk 9 (SelectorExpr (Ident_ (mkIdent 7 "v" None)) (mkIdent 9 "f" None))
    (mkType None Var) 3 (Some f_obj) false false.

(** A file to try the traversal with: a use of [x], then an import
    declaration with a dot import between two plain imports, then a use
    of [y]. *)
Definition x_obj : Object := mkObject (Allocated 3) Var "x".
Definition y_obj : Object := mkObject (Allocated 4) Var "y".

Definition file_dot : Node :=
  File (mkIdent 1 "main" None)
    [ OtherNode [Ident_ (mkIdent 10 "x" (Some x_obj))];
      OtherNode [ ImportSpec None "fmt";
                  ImportSpec (Some (mkIdent 20 "." None)) "strings";
                  ImportSpec (Some (mkIdent 30 "y" (Some y_obj))) "os" ];
      OtherNode [Ident_ (mkIdent 40 "y" (Some y_obj))] ].

Definition file_plain : Node :=
  File (mkIdent 1 "main" None)
    [ OtherNode [Ident_ (mkIdent 40 "y" (Some y_obj))] ].

(** A line without an expression. *)
Definition line_func : symLine :=
  mkSymLine (mkPosition "a.go" 0 10 2) "p" "q" true Fun true "" "int".

(** ** The default of the kinds flag *)

(** [allKinds()]: the keys of [objKinds] joined by commas, in the order
    [order] in which the [range] over the map yields them (each key once,
    in no specified order). *)
Definition allKinds (order : list string) : string := strings_Join order ",".

(** ** Submatches of the pattern *)

(** The texts a pattern matches, with the submatches: [langc r pos m rest
    cs cs'] says that [r] matches [m] at offset [pos] with [rest] after
    it, and that the match turns the submatches [cs] into [cs']. *)
Fixpoint langc (r : regex) (pos : nat) (m rest : string) (cs cs' : caps) : Prop :=
  match r with
  | RBol => m = "" /\ pos = 0%nat /\ cs' = cs
  | REol => m = "" /\ rest = "" /\ cs' = cs
  | RLit l => m = l /\ cs' = cs
  | RClass c => (exists a, m = String a "" /\ cmatch c a = true) /\ cs' = cs
  | RPlus c => (m <> "" /\ Str.all (cmatch c) m = true) /\ cs' = cs
  | RStar c => Str.all (cmatch c) m = true /\ cs' = cs
  | RQuest r' => (m = "" /\ cs' = cs) \/ langc r' pos m rest cs cs'
  | RCat r1 r2 =>
      exists m1 m2 cs1, m = m1 ++ m2 /\
        langc r1 pos m1 (m2 ++ rest) cs cs1 /\
        langc r2 (pos + String.length m1)%nat m2 rest cs1 cs'
  | RGroup n r' => exists cs1, langc r' pos m rest cs cs1 /\ cs' = (n, m) :: cs1
  end.

(** White space before a type text, and the type text: what follows the
    kind token and the [+] of an accepted line. *)
Definition type_tail (tail ty : string) : Prop :=
  (tail = "" /\ ty = "") \/
  (exists sp4, tail = sp4 ++ ty /\ sp4 <> "" /\ Str.all is_space sp4 = true /\
     ty <> "" /\ type_text ty = true).

(** ** The package cache *)

Section Importer.

(** Modelled from the spec: [ast.Package], of which the cache reads
    nothing. *)
Variable Package : Type.

(** [types.DefaultImporter(path)], a function of the path; a nil package
    is [None]. *)
Variable DefaultImporter : string -> option Package.

(** [context]: the cache [pkgCache] (a [map[string]*ast.Package], as the
    list of its entries, the latest first) and, for the record, the paths
    [types.DefaultImporter] was called with.  The mutex runs concurrent
    calls of the importer one after the other and is left out. *)
Record context := mkContext {
  pkgCache : list (string * option Package);
  imported : list string }.

(** [newContext()]. *)
Definition newContext : context := mkContext [] [].

(** [ctxt.pkgCache[path]]: nil for a missing key as for a nil entry. *)
Fixpoint cache_get (m : list (string * option Package)) (path : string)
    : option Package :=
  match m with
  | [] => None
  | (p, pkg) :: m' => if String.eqb p path then pkg else cache_get m' path
  end.

(** [ctxt.importer(path)]: the package and the context after the call. *)
Definition importer (ctxt : context) (path : string) : option Package * context :=
  match cache_get (pkgCache ctxt) path with
  | Some pkg => (Some pkg, ctxt)
  | None =>
      let pkg := DefaultImporter path in
      (pkg, mkContext ((path, pkg) :: pkgCache ctxt) (imported ctxt ++ [path]))
  end.

(** Calls of the importer one after the other. *)
Fixpoint imports (ctxt : context) (paths : list string)
    : list (option Package) * context :=
  match paths with
  | [] => ([], ctxt)
  | p :: ps =>
      let '(pkg, c1) := importer ctxt p in
      let '(pkgs, c2) := imports c1 ps in
      (pkg :: pkgs, c2)
  end.

(** What holds of a context after the paths [hist] were imported: a
    cached package is the one [DefaultImporter] gives, a path imported
    before has its entry, and [DefaultImporter] was called once for a
    path it resolves and as often as asked for one it does not. *)
Definition cache_inv (hist : list string) (c : context) : Prop :=
  (forall p pkg, cache_get (pkgCache c) p = Some pkg ->
     DefaultImporter p = Some pkg /\ In p hist) /\
  (forall p, In p hist ->
     cache_get (pkgCache c) p = DefaultImporter p) /\
  (forall p, count_occ string_dec (imported c) p =
     match DefaultImporter p with
     | Some _ => if in_dec string_dec p hist then 1%nat else 0%nat
     | None => count_occ string_dec hist p
     end).

End Importer.

(** ** What a traversal reaches *)

(** Whether an import to [.] is among the nodes the traversal of [n]
    visits. *)
Fixpoint dot_imports (n : Node) : bool :=
  let any :=
    fix any (ns : list Node) : bool :=
      match ns with
      | [] => false
      | n' :: ns' => dot_imports n' || any ns'
      end in
  match n with
  | Ident_ _ => false
  | SelectorExpr x _ => dot_imports x
  | KeyValueExpr _ v => dot_imports v
  | StarExpr x => dot_imports x
  | ImportSpec name _ => is_dot name
  | FuncType params results => any params || any results
  | FuncDecl recv _ typ body =>
      match recv with Some r => dot_imports r | None => false end
      || dot_imports typ
      || match body with Some b => dot_imports b | None => false end
  | File _ decls => any decls
  | OtherNode children => any children
  end.

(** The expressions the traversal of [n] hands to [visitExpr], in its
    order, when nothing stops it: every identifier and every selector
    behind its base, the name of a function with the binding the
    traversal gives it; not the key of a key-value pair, the field name
    of a selector or the package name of a file. *)
Fixpoint resolved (n : Node) : list Node :=
  let all :=
    fix all (ns : list Node) : list Node :=
      match ns with
      | [] => []
      | n' :: ns' => (resolved n' ++ all ns')%list
      end in
  match n with
  | Ident_ _ => [n]
  | SelectorExpr x _ => (resolved x ++ [n])%list
  | KeyValueExpr _ v => resolved v
  | StarExpr x => resolved x
  | ImportSpec name _ =>
      if is_dot name then []
      else match name with Some id => [Ident_ id] | None => [] end
  | FuncType params results => (all params ++ all results)%list
  | FuncDecl recv name typ body =>
      (match recv with Some r => resolved r | None => [] end
       ++ Ident_ (bindName name (initBinding recv name))
       :: resolved typ
       ++ match body with Some b => resolved b | None => [] end)%list
  | File _ decls => all decls
  | OtherNode children => all children
  end.

(** The occurrence [visitExpr] hands to the callback for the expression
    [e], if it resolves. *)
Definition reported {C : Collaborators} (e : Node) : list symInfo :=
  match snd (visitExpr (fun _ => true) e false) with
  | Some info => [info]
  | None => []
  end.

(** An occurrence as the traversal builds it: the expression is an
    identifier or a selector and resolves to the object and the type of
    the occurrence, the position is the one of the name, the occurrence is
    not local, and either the object is the predeclared one of its name
    or the referred-to position is the one of its declaration. *)
Definition occurrence {C : Collaborators} (info : symInfo) : Prop :=
  exists o,
    ExprType (Info.expr info) = (Some o, Info.exprType info) /\
    Info.referObj info = Some o /\
    Info.local info = false /\
    ((exists id, Info.expr info = Ident_ id /\ Info.pos info = NamePos id) \/
     (exists x sel, Info.expr info = SelectorExpr x sel /\ Info.pos info = NamePos sel)) /\
    Info.universe info = same_object (Universe_Lookup (Obj_Name o)) (Some o) /\
    Info.referPos info = (if Info.universe info then 0 else DeclPos o).

(** The occurrence of [y] in [file_plain], and the selector [x.f.g]. *)
Definition info_y : symInfo :=
  Info.mk 40 (Ident_ (mkIdent 40 "y" (Some y_obj)))
    (mkType (Some (StarExpr T_node)) Var) 3 (Some y_obj) false false.

Definition x_ident : Ident := mkIdent 10 "x" (Some x_obj).

(** * Properties *)

(** ** Strings *)

Lemma append_nil_r (s : string) : s ++ "" = s.
Proof. induction s as [|c s IH]; simpl; [reflexivity | now rewrite IH]. Qed.

Lemma append_assoc (a b c : string) : (a ++ b) ++ c = a ++ b ++ c.
Proof. induction a as [|x a IH]; simpl; [reflexivity | now rewrite IH]. Qed.

Lemma ObjKind_eqb_eq a b : ObjKind_eqb a b = true <-> a = b.
Proof. destruct a, b; simpl; split; congruence. Qed.

(** ** Kind masks *)

Lemma objKinds_Some k c :
  objKinds k = Some c <->
  (k = "const" /\ c = Con) \/ (k = "type" /\ c = Typ) \/
  (k = "var" /\ c = Var) \/ (k = "func" /\ c = Fun).
Proof.
  unfold objKinds, objKinds_entries, map_lookup.
  destruct (String.eqb_spec "const" k) as [<-|n1].
  { split; [intros [= <-]; auto | intros [[_ ->]|[[? _]|[[? _]|[? _]]]]; congruence]. }
  destruct (String.eqb_spec "type" k) as [<-|n2].
  { split; [intros [= <-]; auto | intros [[? _]|[[_ ->]|[[? _]|[? _]]]]; congruence]. }
  destruct (String.eqb_spec "var" k) as [<-|n3].
  { split; [intros [= <-]; auto | intros [[? _]|[[? _]|[[_ ->]|[? _]]]]; congruence]. }
  destruct (String.eqb_spec "func" k) as [<-|n4].
  { split; [intros [= <-]; auto 6 | intros [[? _]|[[? _]|[[? _]|[_ ->]]]]; congruence]. }
  split; [intros [=] | intros [[? _]|[[? _]|[[? _]|[? _]]]]; congruence].
Qed.

(** The tokens [objKinds] knows are exactly the four kind names. *)
Lemma objKinds_known k :
  objKinds k <> None <-> In k ["const"; "type"; "var"; "func"].
Proof.
  split.
  - destruct (objKinds k) as [c|] eqn:E; [intros _ | congruence].
    apply objKinds_Some in E. simpl.
    destruct E as [[-> _]|[[-> _]|[[-> _]|[-> _]]]]; auto.
  - simpl. intros [<-|[<-|[<-|[<-|[]]]]]; discriminate.
Qed.

Lemma kind_bit_testbit c i :
  In c [Con; Typ; Var; Fun] ->
  Z.testbit (kind_bit c) i = (i =? ObjKind_val c).
Proof.
  intros Hc.
  assert (E : kind_bit c = 2 ^ ObjKind_val c)
    by (simpl in Hc; destruct Hc as [<-|[<-|[<-|[<-|[]]]]]; reflexivity).
  rewrite E.
  assert (0 <= ObjKind_val c) by (destruct c; simpl; lia).
  destruct (Z.eqb_spec i (ObjKind_val c)) as [->|n].
  - apply Z.pow2_bits_true; assumption.
  - apply Z.pow2_bits_false; congruence.
Qed.

Lemma objKinds_range k c : objKinds k = Some c -> In c [Con; Typ; Var; Fun].
Proof.
  intros E. apply objKinds_Some in E. simpl.
  destruct E as [[_ ->]|[[_ ->]|[[_ ->]|[_ ->]]]]; auto.
Qed.

(** Without an unknown token the loop ends without an error, and a bit
    is set in its mask exactly when it was set before or is the bit of a
    listed kind. *)
Lemma parseKindMask_loop_ok ks :
  Forall (fun k => objKinds k <> None) ks ->
  forall mask0, exists mask,
    parseKindMask_loop ks mask0 = (mask, None) /\
    forall i, Z.testbit mask i = true <->
      Z.testbit mask0 i = true \/
      exists k c, In k ks /\ objKinds k = Some c /\ i = ObjKind_val c.
Proof.
  induction 1 as [|k ks Hk _ IH]; intros mask0; simpl.
  - exists mask0. split; [reflexivity|].
    intros i; split; [auto | intros [?|(k & c & [] & _)]; assumption].
  - destruct (objKinds k) as [c|] eqn:E; [|congruence].
    destruct (IH (Z.lor mask0 (uint_shl 1 (ObjKind_val c)))) as (mask & Hm & Hbits).
    exists mask. split; [assumption|].
    intros i. rewrite Hbits, Z.lor_spec, orb_true_iff.
    fold (kind_bit c). rewrite (kind_bit_testbit c i (objKinds_range k c E)), Z.eqb_eq.
    split.
    + intros [[?| ->]|(k' & c' & Hin & E' & ->)]; eauto 8.
    + intros [?|(k' & c' & [<-|Hin] & E' & ->)]; eauto 8.
      left; right. congruence.
Qed.

(** At the first unknown token the loop returns a zero mask and the
    error that names the token. *)
Lemma parseKindMask_loop_err ks :
  Exists (fun k => objKinds k = None) ks ->
  forall mask0, exists pre k post,
    ks = (pre ++ k :: post)%list /\
    Forall (fun k' => objKinds k' <> None) pre /\
    objKinds k = None /\
    parseKindMask_loop ks mask0 = (0, Some (Errorf "unknown type kind %q" k)).
Proof.
  induction ks as [|k ks IH]; intros Hex mask0; [inversion Hex|].
  simpl. destruct (objKinds k) as [c|] eqn:E.
  - inversion Hex as [? ? Hk|? ? Hks]; subst; [congruence|].
    destruct (IH Hks (Z.lor mask0 (uint_shl 1 (ObjKind_val c))))
      as (pre & k' & post & -> & Hpre & Hk' & Hr).
    exists (k :: pre), k', post. repeat split; try assumption.
    constructor; [congruence | assumption].
  - exists [], k, ks. repeat split; [constructor | assumption].
Qed.

(** C4: the tokens of the list are the pieces [strings.Split] cuts at the
    commas.  When each is one of const, type, var, func, [parseKindMask]
    returns no error and a mask whose set bits are exactly the bits of
    the listed kinds; when one is not, it returns a zero mask and an
    error that names the first such token. *)
Theorem parseKindMask_spec (kinds : string) :
  let toks := strings_Split kinds "," in
  let known := fun k => In k ["const"; "type"; "var"; "func"] in
  (Forall known toks ->
   exists mask,
     parseKindMask kinds = (mask, None) /\
     forall i, Z.testbit mask i = true <->
       exists k c, In k toks /\ objKinds k = Some c /\ i = ObjKind_val c)
  /\
  (Exists (fun k => ~ known k) toks ->
   exists pre k post,
     toks = (pre ++ k :: post)%list /\ Forall known pre /\ ~ known k /\
     parseKindMask kinds = (0, Some (Errorf "unknown type kind %q" k))).
Proof.
  intros toks known; unfold parseKindMask; fold toks. split.
  - intros Hall.
    assert (Hall' : Forall (fun k => objKinds k <> None) toks).
    { eapply Forall_impl; [|exact Hall]. intros k; apply objKinds_known. }
    destruct (parseKindMask_loop_ok toks Hall' 0) as (mask & Hm & Hbits).
    exists mask; split; [assumption|].
    intros i. rewrite Hbits, Z.testbit_0_l. split; [intros [?|?]|]; auto; discriminate.
  - intros Hex.
    assert (Hex' : Exists (fun k => objKinds k = None) toks).
    { eapply Exists_impl; [|exact Hex]. intros k Hk.
      destruct (objKinds k) eqn:E; [|reflexivity].
      exfalso; apply Hk, objKinds_known; congruence. }
    destruct (parseKindMask_loop_err toks Hex' 0) as (pre & k & post & Ht & Hpre & Hk & Hr).
    exists pre, k, post. repeat split; try assumption.
    + eapply Forall_impl; [|exact Hpre]. intros k'; apply objKinds_known.
    + intros Hin'. apply objKinds_known in Hin'. congruence.
Qed.

Example parseKindMask_func_var :
  parseKindMask "func,var" = (48, None).
Proof. reflexivity. Qed.

Example parseKindMask_empty :
  parseKindMask "" = (0, Some (Errorf "unknown type kind %q" "")).
Proof. reflexivity. Qed.

Example parseKindMask_unknown :
  parseKindMask "func,Var,x" = (0, Some (Errorf "unknown type kind %q" "Var")).
Proof. reflexivity. Qed.

Lemma strings_Split_nonempty s sep : strings_Split s sep <> [].
Proof.
  destruct s as [|c s]; simpl; [discriminate|].
  destruct (Ascii.eqb c sep); [discriminate|].
  destruct (strings_Split s sep); discriminate.
Qed.

(** Joining tokens that hold no separator and splitting the text again
    gives the tokens back. *)
Lemma strings_Split_Join (ks : list string) (sep : ascii) :
  ks <> [] ->
  Forall (fun k => Str.all (fun a => negb (Ascii.eqb a sep)) k = true) ks ->
  strings_Split (strings_Join ks sep) sep = ks.
Proof.
  intros Hne Hall. induction Hall as [|k ks Hk Hks IH]; [congruence|].
  assert (Hcons : forall rest,
    strings_Split (k ++ String sep rest) sep = k :: strings_Split rest sep).
  { intros rest. clear - Hk. induction k as [|a k IHk]; simpl.
    - now rewrite Ascii.eqb_refl.
    - simpl in Hk. apply andb_true_iff in Hk as [Ha Hk].
      apply negb_true_iff in Ha. rewrite Ha, (IHk Hk). reflexivity. }
  destruct ks as [|k' ks'].
  - simpl. clear - Hk. induction k as [|a k IHk]; simpl; [reflexivity|].
    simpl in Hk. apply andb_true_iff in Hk as [Ha Hk].
    apply negb_true_iff in Ha. rewrite Ha, (IHk Hk). reflexivity.
  - change (strings_Join (k :: k' :: ks') sep)
      with (k ++ String sep (strings_Join (k' :: ks') sep)).
    rewrite Hcons, IH; [reflexivity | discriminate].
Qed.

Lemma kind_bit_set c : In c [Con; Typ; Var; Fun] ->
  Z.testbit (kind_bit c) (ObjKind_val c) = true.
Proof. intros Hc. rewrite (kind_bit_testbit c _ Hc). apply Z.eqb_refl. Qed.

(** A mask that has a bit set keeps one through the rest of the loop. *)
Lemma parseKindMask_loop_keeps ks :
  forall mask0 mask i,
    Z.testbit mask0 i = true ->
    parseKindMask_loop ks mask0 = (mask, None) ->
    exists j, Z.testbit mask j = true.
Proof.
  induction ks as [|k ks IH]; intros mask0 mask i Hi; simpl.
  - intros [= <-]. eauto.
  - destruct (objKinds k) as [c|]; [|discriminate].
    apply (IH _ _ i). rewrite Z.lor_spec, Hi. reflexivity.
Qed.

(** C10: when [parseKindMask] returns without an error its mask is not
    zero, and a zero mask comes only together with an error. *)
Theorem parseKindMask_nonzero (kinds : string) (mask : Z) (err : option error) :
  parseKindMask kinds = (mask, err) ->
  (err = None -> mask <> 0) /\ (mask = 0 -> err <> None).
Proof.
  unfold parseKindMask. intros Hp.
  assert (Hsucc : err = None -> mask <> 0).
  { intros ->.
    destruct (strings_Split kinds ",") as [|k ks] eqn:Es.
    - now apply strings_Split_nonempty in Es.
    - simpl in Hp. destruct (objKinds k) as [c|] eqn:Ek; [|discriminate].
      assert (Hbit : Z.testbit (Z.lor 0 (uint_shl 1 (ObjKind_val c))) (ObjKind_val c) = true).
      { rewrite Z.lor_0_l. apply kind_bit_set, (objKinds_range k c Ek). }
      destruct (parseKindMask_loop_keeps ks _ mask _ Hbit Hp) as (j & Hj).
      intros ->. rewrite Z.testbit_0_l in Hj. discriminate. }
  split; [assumption|].
  intros Hz Hn. exact (Hsucc Hn Hz).
Qed.

Lemma parseKindMask_nonzero_witness :
  parseKindMask "func,const" = (36, None) /\
  ((@None error = None -> 36 <> 0) /\ (36 = 0 -> @None error <> None)).
Proof.
  split; [reflexivity|].
  apply (parseKindMask_nonzero "func,const" 36 None). reflexivity.
Defined.

(** ** The serializer *)

Lemma Position_String_valid (p : Position) :
  Position_IsValid p = true -> Filename p <> "" ->
  Position_String p = Filename p ++ ":" ++ itoa (Line p) ++ ":" ++ itoa (Column p).
Proof.
  intros Hv Hf. unfold Position_String. rewrite Hv.
  destruct (String.eqb_spec (Filename p) "") as [E|_]; [contradiction|].
  rewrite append_assoc.
  destruct (Filename p) as [|c f]; [contradiction|]. reflexivity.
Qed.

Lemma length_pos_iff (s : string) :
  (0 <? String.length s)%nat = negb (String.eqb s "").
Proof. destruct s; reflexivity. Qed.

(** The text of a line, piece by piece. *)
Lemma symLine_String_eq (l : symLine) :
  symLine_String l =
    Position_String (pos l)
    ++ ": " ++ exprPkg l ++ " " ++ referPkg l ++ " " ++ expr l ++ " "
    ++ (if local l then "local" else "") ++ ObjKind_String (kind l)
    ++ (if definition l then "+" else "")
    ++ (if String.eqb (exprType l) "" then "" else " " ++ exprType l).
Proof.
  unfold symLine_String. rewrite length_pos_iff.
  cbn [Sprintf Ascii.eqb Bool.eqb]. cbn [append].
  destruct (String.eqb (exprType l) ""); cbn [negb];
    rewrite ?append_nil_r; reflexivity.
Qed.

(** C2 (as the code has it): a line is rendered as
    [<file>:<line>:<col>: <ownerPkg> <referPkg> <expr> [local]<kind>[+][ <type>]]:
    one space follows the expression text, then come the optional
    [local] marker, the kind token right after it, the optional [+] and
    the optional type text behind exactly one space. *)
Theorem symLine_String_grammar (l : symLine) :
  Position_IsValid (pos l) = true ->
  Filename (pos l) <> "" ->
  symLine_String l =
    Filename (pos l) ++ ":" ++ itoa (Line (pos l)) ++ ":" ++ itoa (Column (pos l))
    ++ ": " ++ exprPkg l ++ " " ++ referPkg l ++ " " ++ expr l ++ " "
    ++ (if local l then "local" else "") ++ ObjKind_String (kind l)
    ++ (if definition l then "+" else "")
    ++ (if String.eqb (exprType l) "" then "" else " " ++ exprType l).
Proof.
  intros Hv Hf.
  rewrite symLine_String_eq, (Position_String_valid _ Hv Hf).
  now rewrite !append_assoc.
Qed.

Lemma symLine_String_grammar_witness :
  symLine_String line_Baz = "a.go:1:2: p q Baz func".
Proof.
  apply (symLine_String_grammar line_Baz); [reflexivity | discriminate].
Defined.

(** C2, the counterexample: the code puts a space between the expression
    and the kind token, where the specification's grammar has none. *)
Lemma symLine_String_not_spec_line :
  symLine_String line_Baz = "a.go:1:2: p q Baz func" /\
  spec_line line_Baz = "a.go:1:2: p q Bazfunc" /\
  String.eqb (symLine_String line_Baz) (spec_line line_Baz) = false.
Proof. repeat split. Qed.

(** ** The matcher on text of a known shape *)

Lemma all_impl (p q : ascii -> bool) (s : string) :
  (forall a, p a = true -> q a = true) ->
  Str.all p s = true -> Str.all q s = true.
Proof.
  intros Hpq. induction s as [|a s IH]; simpl; [reflexivity|].
  intros H. apply andb_true_iff in H as [Ha Hs].
  now rewrite (Hpq _ Ha), (IH Hs).
Qed.

Lemma stops_app (p q : ascii -> bool) (w rest : string) :
  (forall a, q a = true -> p a = false) ->
  w <> "" -> Str.all q w = true -> Str.stops p (w ++ rest) = true.
Proof.
  intros Hqp Hne Hall. destruct w as [|a w]; [congruence|].
  simpl in *. apply andb_true_iff in Hall as [Ha _].
  now rewrite (Hqp _ Ha).
Qed.

Lemma strip_app (l rest : string) : strip l (l ++ rest) = Some rest.
Proof.
  induction l as [|a l IH]; simpl; [now destruct rest|].
  now rewrite Ascii.eqb_refl.
Qed.

(** A greedy repetition takes the whole run when what follows it then
    matches. *)
Lemma star_match_greedy c w rest k r :
  Str.all (cmatch c) w = true -> Str.stops (cmatch c) rest = true ->
  k w rest = Some r -> star_match c (w ++ rest) k = Some r.
Proof.
  revert k. induction w as [|a w IH]; intros k Hall Hstop Hk; simpl.
  - destruct rest as [|b rest]; simpl; [assumption|].
    simpl in Hstop. apply negb_true_iff in Hstop. now rewrite Hstop.
  - simpl in Hall. apply andb_true_iff in Hall as [Ha Hw]. rewrite Ha.
    now rewrite (IH (fun m rest0 => k (String a m) rest0) Hw Hstop Hk).
Qed.

Lemma plus_match_greedy c w rest k r :
  w <> "" ->
  Str.all (cmatch c) w = true -> Str.stops (cmatch c) rest = true ->
  k w rest = Some r -> plus_match c (w ++ rest) k = Some r.
Proof.
  intros Hne Hall Hstop Hk. destruct w as [|a w]; [congruence|].
  simpl in *. apply andb_true_iff in Hall as [Ha Hw]. rewrite Ha.
  now apply (star_match_greedy c w rest (fun m rest0 => k (String a m) rest0)).
Qed.

Lemma find_from_first r pos s m :
  run r pos s [] (fun m _ cs => Some ((0%nat, m) :: cs)) = Some m ->
  find_from r pos s = Some m.
Proof. intros H. destruct s; simpl; now rewrite H. Qed.

Section Steps.

Variables (pos : nat) (cs : caps) (k : string -> string -> caps -> option caps).
Variable res : caps.

Lemma run_RCat r1 r2 s :
  run r1 pos s cs (fun m1 s1 cs1 =>
    run r2 (pos + String.length m1)%nat s1 cs1 (fun m2 s2 cs2 =>
      k (m1 ++ m2) s2 cs2)) = Some res ->
  run (RCat r1 r2) pos s cs k = Some res.
Proof. exact (fun H => H). Qed.

Lemma run_RGroup n r s :
  run r pos s cs (fun m rest cs' => k m rest ((n, m) :: cs')) = Some res ->
  run (RGroup n r) pos s cs k = Some res.
Proof. exact (fun H => H). Qed.

Lemma run_RLit l s rest :
  strip l s = Some rest ->
  k l rest cs = Some res -> run (RLit l) pos s cs k = Some res.
Proof. intros Hs H. simpl. now rewrite Hs. Qed.

Lemma run_RPlus c w s rest :
  s = w ++ rest ->
  w <> "" -> Str.all (cmatch c) w = true -> Str.stops (cmatch c) rest = true ->
  k w rest cs = Some res -> run (RPlus c) pos s cs k = Some res.
Proof. intros ->; intros. simpl. now apply plus_match_greedy. Qed.

Lemma run_RClass c a s s' :
  s = String a s' ->
  cmatch c a = true -> k (String a "") s' cs = Some res ->
  run (RClass c) pos s cs k = Some res.
Proof. intros -> Ha H. simpl. now rewrite Ha. Qed.

Lemma run_RStar_all c w :
  Str.all (cmatch c) w = true -> k w "" cs = Some res ->
  run (RStar c) pos w cs k = Some res.
Proof.
  intros Hall H. simpl. rewrite <- (append_nil_r w) at 1.
  now apply star_match_greedy.
Qed.

Lemma run_RQuest_take r s :
  run r pos s cs k = Some res -> run (RQuest r) pos s cs k = Some res.
Proof. intros H. simpl. now rewrite H. Qed.

Lemma run_RQuest_skip r s :
  run r pos s cs k = None -> k "" s cs = Some res ->
  run (RQuest r) pos s cs k = Some res.
Proof. intros Hn H. simpl. now rewrite Hn. Qed.

Lemma run_REol s :
  s = "" -> k "" "" cs = Some res -> run REol pos s cs k = Some res.
Proof. intros ->. exact (fun H => H). Qed.

End Steps.

Lemma run_RBol s cs k res :
  k "" s cs = Some res -> run RBol 0 s cs k = Some res.
Proof. exact (fun H => H). Qed.

Lemma blank_is_space a : is_blank a = true -> is_space a = true.
Proof.
  unfold is_blank. destruct (Ascii.eqb_spec " " a) as [<-|]; [reflexivity|discriminate].
Qed.

Lemma cmatch_not_colon a : cmatch (cls_not [ILit ":"]) a = not_colon a.
Proof. unfold not_colon; simpl. now rewrite orb_false_r. Qed.

Lemma cmatch_digit a : cmatch cls_d a = is_digit a.
Proof. simpl. now rewrite orb_false_r. Qed.

Lemma cmatch_space a : cmatch cls_s a = is_space a.
Proof. simpl. now rewrite orb_false_r. Qed.

Lemma cmatch_no_space a : cmatch (cls_not [ISpace]) a = no_space a.
Proof. unfold no_space; simpl. now rewrite orb_false_r. Qed.

Lemma cmatch_not_blank a : cmatch (cls_not [ILit " "]) a = negb (is_blank a).
Proof. unfold is_blank; simpl. now rewrite orb_false_r. Qed.

Lemma all_not_colon s :
  Str.all not_colon s = true -> Str.all (cmatch (cls_not [ILit ":"])) s = true.
Proof. apply all_impl. intros a. now rewrite cmatch_not_colon. Qed.

Lemma all_digit s :
  Str.all is_digit s = true -> Str.all (cmatch cls_d) s = true.
Proof. apply all_impl. intros a. now rewrite cmatch_digit. Qed.

Lemma all_blank_space s :
  Str.all is_blank s = true -> Str.all (cmatch cls_s) s = true.
Proof. apply all_impl. intros a. rewrite cmatch_space. apply blank_is_space. Qed.

Lemma all_no_space s :
  Str.all no_space s = true -> Str.all (cmatch (cls_not [ISpace])) s = true.
Proof. apply all_impl. intros a. now rewrite cmatch_no_space. Qed.

Lemma all_no_space_not_blank s :
  Str.all no_space s = true -> Str.all (cmatch (cls_not [ILit " "])) s = true.
Proof.
  apply all_impl. intros a Ha. rewrite cmatch_not_blank.
  destruct (is_blank a) eqn:E; [|reflexivity].
  apply blank_is_space in E. unfold no_space in Ha. now rewrite E in Ha.
Qed.

Lemma stops_space w rest :
  w <> "" -> Str.all no_space w = true -> Str.stops (cmatch cls_s) (w ++ rest) = true.
Proof.
  apply stops_app. intros a Ha. rewrite cmatch_space.
  now apply negb_true_iff.
Qed.

Lemma stops_not_blank w rest :
  w <> "" -> Str.all is_blank w = true ->
  Str.stops (cmatch (cls_not [ILit " "])) (w ++ rest) = true.
Proof.
  apply stops_app. intros a Ha. rewrite cmatch_not_blank. now rewrite Ha.
Qed.

Lemma stops_no_space w rest :
  w <> "" -> Str.all is_blank w = true ->
  Str.stops (cmatch (cls_not [ISpace])) (w ++ rest) = true.
Proof.
  apply stops_app. intros a Ha. rewrite cmatch_no_space.
  unfold no_space. now rewrite (blank_is_space _ Ha).
Qed.

Create HintDb cls.
#[local] Hint Resolve all_not_colon all_digit all_blank_space all_no_space
  all_no_space_not_blank stops_space stops_not_blank stops_no_space : cls.

Section GrammarLine.

Variables file ln col sp1 owner sp2 refer sp3 : string.

Hypothesis file_ne : file <> "".
Hypothesis file_ok : Str.all not_colon file = true.
Hypothesis ln_ne : ln <> "".
Hypothesis ln_ok : Str.all is_digit ln = true.
Hypothesis col_ne : col <> "".
Hypothesis col_ok : Str.all is_digit col = true.
Hypothesis sp1_ne : sp1 <> "".
Hypothesis sp1_ok : Str.all is_blank sp1 = true.
Hypothesis owner_ne : owner <> "".
Hypothesis owner_ok : Str.all no_space owner = true.
Hypothesis sp2_ne : sp2 <> "".
Hypothesis sp2_ok : Str.all is_blank sp2 = true.
Hypothesis refer_ne : refer <> "".
Hypothesis refer_ok : Str.all no_space refer = true.
Hypothesis sp3_ne : sp3 <> "".
Hypothesis sp3_ok : Str.all is_blank sp3 = true.

Ltac cls_goal := solve [ assumption | reflexivity | discriminate | auto with cls ].

(* One class repetition, capturing or not, that takes [w]. *)
Ltac take x :=
  apply run_RCat;
  first [ apply run_RGroup | idtac ];
  eapply run_RPlus with (w := x); [reflexivity | cls_goal .. | cbv beta].

Ltac literal :=
  apply run_RCat; eapply run_RLit; [reflexivity | cbv beta].

(* An optional group: skipped when it cannot match, taken otherwise. *)
Ltac optional tac :=
  apply run_RCat;
  first [ apply run_RQuest_skip; [reflexivity | cbv beta]
        | apply run_RQuest_take, run_RGroup; tac; cbv beta ].

Lemma linePat_groups (loc : bool) (k : ObjKind) (plus : bool) (ty : string) :
  In k [Con; Typ; Var; Fun] ->
  type_text ty = true ->
  exists m,
    FindStringSubmatch linePat
      (grammar_line file ln col sp1 owner sp2 refer sp3 loc k plus ty) = Some m /\
    group m 1 = file /\ group m 2 = ln /\ group m 3 = col /\
    group m 4 = owner /\ group m 5 = refer /\
    group m 6 = (if loc then "local" else "") /\
    group m 7 = ObjKind_String k /\
    group m 8 = (if plus then "+" else "") /\
    group m 9 = (if String.eqb ty "" then "" else " " ++ ty) /\
    group m 10 = ty.
Proof.
  intros Hk Hty. unfold grammar_line.
  assert (Hty' : ty = "" \/ exists a ty', ty = String a ty' /\
            cmatch (cls_not [ISpace]) a = true /\ Str.all (cmatch CAny) ty' = true).
  { destruct ty as [|a ty']; [now left | right]. exists a, ty'.
    simpl in Hty. apply andb_true_iff in Hty as [Ha Hty].
    now rewrite cmatch_no_space. }
  clear Hty.
  simpl in Hk.
  destruct Hty' as [-> | (a & ty' & -> & Ha & Hty')];
    destruct Hk as [<-|[<-|[<-|[<-|[]]]]]; destruct loc, plus;
    (eexists; split;
     [ unfold FindStringSubmatch, linePat; cbn [cat]; apply find_from_first;
       apply run_RCat, run_RBol; cbv beta;
       take file; literal; take ln; literal; take col; literal;
       take sp1; take owner; take sp2; take refer; take sp3;
       optional ltac:(eapply run_RLit; [reflexivity|]);
       apply run_RCat, run_RGroup;
       eapply run_RPlus with (w := ObjKind_String _); [reflexivity | cls_goal .. | cbv beta];
       optional ltac:(eapply run_RLit; [reflexivity|]);
       optional ltac:(
         apply run_RCat; eapply run_RPlus with (w := " "); 
           [reflexivity | discriminate | reflexivity
           | exact Ha | cbv beta];
         apply run_RGroup, run_RCat; eapply run_RClass; [reflexivity | exact Ha | cbv beta];
         apply run_RStar_all; [exact Hty' | cbv beta]);
       apply run_REol; reflexivity
     | repeat split ]).
Qed.
Variables n c : Z.
Hypothesis ln_val : strconv_Atoi ln = Some n.
Hypothesis col_val : strconv_Atoi col = Some c.

Lemma objKinds_String k :
  In k [Con; Typ; Var; Fun] -> objKinds (ObjKind_String k) = Some k.
Proof. simpl. intros [<-|[<-|[<-|[<-|[]]]]]; reflexivity. Qed.

(** A line of the pattern's grammar parses to the fields it was put
    together from; the expression field stays empty. *)
Lemma parseSymLine_grammar_line (loc : bool) (k : ObjKind) (plus : bool) (ty : string) :
  In k [Con; Typ; Var; Fun] ->
  type_text ty = true ->
  parseSymLine (grammar_line file ln col sp1 owner sp2 refer sp3 loc k plus ty) =
  Ret ({| pos := mkPosition file 0 n c;
          exprPkg := owner;
          referPkg := refer;
          local := loc;
          kind := k;
          definition := plus;
          expr := "";
          exprType := ty |}, None).
Proof.
  intros Hk Hty.
  destruct (linePat_groups loc k plus ty Hk Hty)
    as (m & Hm & H1 & H2 & H3 & H4 & H5 & H6 & H7 & H8 & H9 & H10).
  unfold parseSymLine. rewrite Hm, H1, H2, H3, H4, H5, H6, H7, H8, H9, H10.
  unfold atoi. rewrite ln_val, col_val. cbn [bind].
  rewrite (objKinds_String k Hk).
  repeat f_equal.
  - now destruct loc.
  - now destruct plus.
  - now destruct ty.
Qed.

End GrammarLine.

(** ** The matcher finds exactly the texts of the pattern *)

Lemma strip_Some l s rest : strip l s = Some rest -> s = l ++ rest.
Proof.
  revert s. induction l as [|a l IH]; intros s; simpl.
  - destruct s; intros [= <-]; reflexivity.
  - destruct s as [|b s]; [discriminate|].
    destruct (Ascii.eqb_spec a b) as [<-|]; [|discriminate].
    intros H. now rewrite (IH _ H).
Qed.

Lemma star_match_sound c s k res :
  star_match c s k = Some res ->
  exists m rest, s = m ++ rest /\ Str.all (cmatch c) m = true /\ k m rest = Some res.
Proof.
  revert k. induction s as [|a s IH]; intros k; simpl.
  - intros H. exists "", "". auto.
  - destruct (cmatch c a) eqn:Ha.
    + destruct (star_match c s (fun m rest => k (String a m) rest)) as [r|] eqn:E.
      * intros [= <-]. apply IH in E as (m & rest & -> & Hm & Hk).
        exists (String a m), rest. simpl. rewrite Ha, Hm. auto.
      * intros H. exists "", (String a s). auto.
    + intros H. exists "", (String a s). auto.
Qed.

Lemma star_match_complete c m rest k :
  Str.all (cmatch c) m = true -> k m rest <> None ->
  star_match c (m ++ rest) k <> None.
Proof.
  revert k. induction m as [|a m IH]; intros k Hall Hk; simpl.
  - destruct rest as [|b rest]; simpl; [assumption|].
    destruct (cmatch c b); [|assumption].
    destruct (star_match c rest (fun m rest0 => k (String b m) rest0));
      [discriminate | assumption].
  - simpl in Hall. apply andb_true_iff in Hall as [Ha Hm]. rewrite Ha.
    specialize (IH (fun m0 rest0 => k (String a m0) rest0) Hm Hk).
    destruct (star_match c (m ++ rest) (fun m0 rest0 => k (String a m0) rest0));
      [discriminate | contradiction].
Qed.

(** When the matcher succeeds, the pattern matches a prefix of the text
    and the continuation accepted what was left. *)
Lemma run_sound r :
  forall pos s cs k res,
    run r pos s cs k = Some res ->
    exists m rest cs', s = m ++ rest /\ lang r pos m rest /\ k m rest cs' = Some res.
Proof.
  induction r as [| |l|c|c|c|r IH|r1 IH1 r2 IH2|n r IH]; intros pos s cs k res; simpl.
  - destruct (Nat.eqb_spec pos 0); [|discriminate].
    intros H. exists "", s, cs. auto.
  - destruct s; [|discriminate]. intros H. exists "", "", cs. auto.
  - destruct (strip l s) as [rest|] eqn:E; [|discriminate].
    intros H. exists l, rest, cs. split; [now apply strip_Some | auto].
  - destruct s as [|a s]; [discriminate|].
    destruct (cmatch c a) eqn:Ha; [|discriminate].
    intros H. exists (String a ""), s, cs. split; [reflexivity|]. split; [eauto|assumption].
  - unfold plus_match. destruct s as [|a s]; [discriminate|].
    destruct (cmatch c a) eqn:Ha; [|discriminate].
    intros H. apply star_match_sound in H as (m & rest & -> & Hm & Hk).
    exists (String a m), rest, cs. simpl. rewrite Ha, Hm.
    repeat split; [discriminate | assumption].
  - intros H. apply star_match_sound in H as (m & rest & -> & Hm & Hk).
    exists m, rest, cs. auto.
  - destruct (run r pos s cs k) as [r'|] eqn:E.
    + intros [= <-]. apply IH in E as (m & rest & cs' & -> & Hl & Hk).
      exists m, rest, cs'. auto.
    + intros H. exists "", s, cs. auto.
  - intros H. apply IH1 in H as (m1 & s1 & cs1 & -> & Hl1 & H).
    apply IH2 in H as (m2 & s2 & cs2 & -> & Hl2 & H).
    exists (m1 ++ m2), s2, cs2. rewrite append_assoc. split; [reflexivity|].
    split; [|assumption]. exists m1, m2. auto.
  - intros H. apply IH in H as (m & rest & cs' & -> & Hl & Hk).
    exists m, rest, ((n, m) :: cs'). auto.
Qed.

(** When the pattern matches a prefix of the text and the continuation
    accepts what is left, the matcher succeeds. *)
Lemma run_complete r :
  forall pos m rest cs k,
    lang r pos m rest ->
    (forall cs', k m rest cs' <> None) ->
    run r pos (m ++ rest) cs k <> None.
Proof.
  induction r as [| |l|c|c|c|r IH|r1 IH1 r2 IH2|n r IH]; intros pos m rest cs k; simpl.
  - intros [-> ->] Hk. apply Hk.
  - intros [-> ->] Hk. apply Hk.
  - intros -> Hk. rewrite strip_app. apply Hk.
  - intros (a & -> & Ha) Hk. simpl. rewrite Ha. apply Hk.
  - intros [Hne Hall] Hk. destruct m as [|a m]; [congruence|].
    simpl in *. apply andb_true_iff in Hall as [Ha Hm]. rewrite Ha.
    apply (star_match_complete c m rest (fun m0 rest0 => k (String a m0) rest0 cs) Hm).
    apply Hk.
  - intros Hall Hk.
    apply (star_match_complete c m rest (fun m0 rest0 => k m0 rest0 cs) Hall). apply Hk.
  - intros [-> | Hl] Hk.
    + destruct (run r pos ("" ++ rest) cs k); [discriminate | apply Hk].
    + specialize (IH pos m rest cs k Hl Hk).
      destruct (run r pos (m ++ rest) cs k); [discriminate | contradiction].
  - intros (m1 & m2 & -> & Hl1 & Hl2) Hk. rewrite append_assoc.
    apply IH1; [assumption|]. intros cs1.
    apply IH2; [assumption|]. intros cs2. apply Hk.
  - intros Hl Hk. apply IH; [assumption|]. intros cs'. apply Hk.
Qed.

Lemma find_from_not_at_start r pos s :
  find_from (RCat RBol r) (S pos) s = None.
Proof. revert pos. induction s as [|a s IH]; intros pos; simpl; [reflexivity | apply IH]. Qed.

(** [linePat] is anchored at both ends: it matches the whole line or
    nothing. *)
Lemma lang_linePat_rest pos m rest : lang linePat pos m rest -> rest = "".
Proof.
  unfold linePat; cbn [cat lang].
  intros H. repeat (destruct H as (? & ? & _ & _ & H)). apply H.
Qed.

Lemma find_from_eq r pos s :
  find_from r pos s =
  match run r pos s [] (fun m _ cs => Some ((0%nat, m) :: cs)) with
  | Some cs => Some cs
  | None =>
      match s with
      | EmptyString => None
      | String _ s' => find_from r (S pos) s'
      end
  end.
Proof. destruct s; reflexivity. Qed.

Lemma FindStringSubmatch_linePat line :
  (exists m, FindStringSubmatch linePat line = Some m) <-> lang linePat 0 line "".
Proof.
  unfold FindStringSubmatch. split.
  - intros (m & H). rewrite find_from_eq in H.
    destruct (run linePat 0 line [] _) as [res|] eqn:E.
    + apply run_sound in E as (m0 & rest & cs' & -> & Hl & _).
      pose proof (lang_linePat_rest _ _ _ Hl) as ->. now rewrite append_nil_r.
    + destruct line as [|a line]; [discriminate|].
      unfold linePat in H; cbn [cat] in H. now rewrite find_from_not_at_start in H.
  - intros Hl.
    assert (Hrun : run linePat 0 (line ++ "") []
              (fun m _ cs => Some ((0%nat, m) :: cs)) <> None)
      by (apply run_complete; [assumption | discriminate]).
    rewrite append_nil_r in Hrun.
    destruct (run linePat 0 line [] _) as [res|] eqn:E; [|congruence].
    exists res. now apply find_from_first.
Qed.

Lemma all_ext (p q : ascii -> bool) (s : string) :
  (forall a, p a = q a) -> Str.all p s = Str.all q s.
Proof.
  intros Hpq. induction s as [|a s IH]; simpl; [reflexivity|].
  now rewrite Hpq, IH.
Qed.

Lemma cmatch_token a : cmatch (cls_not [ISpace; ILit "+"]) a = token_byte a.
Proof.
  unfold token_byte, no_space, cls_not, cmatch, existsb, imatch.
  now destruct (is_space a), (Ascii.eqb "+" a).
Qed.

Lemma cmatch_any a : cmatch CAny a = not_newline a.
Proof. reflexivity. Qed.

(** The texts of [linePat] are the lines of [line_shape]. *)
Lemma lang_linePat_shape line : lang linePat 0 line "" <-> line_shape line.
Proof.
  unfold linePat, line_shape; cbn [cat lang]. split.
  - intros (m0 & r0 & -> & [-> _] & H).
    destruct H as (file & ? & -> & [Hf1 Hf2] & H).
    destruct H as (? & ? & -> & -> & H).
    destruct H as (ln & ? & -> & [Hl1 Hl2] & H).
    destruct H as (? & ? & -> & -> & H).
    destruct H as (col & ? & -> & [Hc1 Hc2] & H).
    destruct H as (? & ? & -> & -> & H).
    destruct H as (sp1 & ? & -> & [Hs1 Hs1'] & H).
    destruct H as (owner & ? & -> & [Ho1 Ho2] & H).
    destruct H as (sp2 & ? & -> & [Hs2 Hs2'] & H).
    destruct H as (refer & ? & -> & [Hr1 Hr2] & H).
    destruct H as (sp3 & ? & -> & [Hs3 Hs3'] & H).
    destruct H as (loc & ? & -> & Hloc & H).
    destruct H as (tok & ? & -> & [Ht1 Ht2] & H).
    destruct H as (plus & ? & -> & Hplus & H).
    destruct H as (ty & ? & -> & Hty & -> & _).
    exists file, ln, col, sp1, owner, sp2, refer, sp3, loc, tok, plus, ty.
    rewrite (all_ext _ _ _ cmatch_not_colon) in Hf2.
    rewrite (all_ext _ _ _ cmatch_digit) in Hl2.
    rewrite (all_ext _ _ _ cmatch_digit) in Hc2.
    rewrite (all_ext _ _ _ cmatch_space) in Hs1'.
    rewrite (all_ext _ _ _ cmatch_space) in Hs2'.
    rewrite (all_ext _ _ _ cmatch_space) in Hs3'.
    rewrite (all_ext _ _ _ cmatch_not_blank) in Ho2.
    rewrite (all_ext _ _ _ cmatch_no_space) in Hr2.
    rewrite (all_ext _ _ _ cmatch_token) in Ht2.
    split; [now rewrite append_nil_r|].
    repeat (split; [auto; fail|]).
    destruct Hty as [->|(sp4 & ty' & -> & [Hs4 Hs4'] & a & ty'' & -> & (a' & -> & Ha) & Hty)];
      [now left | right].
    exists sp4, a', ty''.
    rewrite (all_ext _ _ _ cmatch_space) in Hs4'. rewrite cmatch_no_space in Ha.
    auto.
  - intros (file & ln & col & sp1 & owner & sp2 & refer & sp3 & loc & tok & plus & ty
            & -> & Hf & Hl & Hc & Hs1 & Ho & Hs2 & Hr & Hs3 & Hloc & Ht & Hplus & Hty).
    rewrite <- (all_ext _ _ _ cmatch_not_colon) in Hf.
    rewrite <- (all_ext _ _ _ cmatch_digit) in Hl.
    rewrite <- (all_ext _ _ _ cmatch_digit) in Hc.
    rewrite <- (all_ext _ _ _ cmatch_space) in Hs1.
    rewrite <- (all_ext _ _ _ cmatch_space) in Hs2.
    rewrite <- (all_ext _ _ _ cmatch_space) in Hs3.
    rewrite <- (all_ext _ _ _ cmatch_not_blank) in Ho.
    rewrite <- (all_ext _ _ _ cmatch_no_space) in Hr.
    rewrite <- (all_ext _ _ _ cmatch_token) in Ht.
    exists "", (file ++ ":" ++ ln ++ ":" ++ col ++ ":" ++ sp1 ++ owner ++ sp2
                 ++ refer ++ sp3 ++ loc ++ tok ++ plus ++ ty).
    repeat split.
    repeat (eexists; eexists; split; [reflexivity|]; split; [eassumption || reflexivity|]).
    exists ty, "". split; [now rewrite append_nil_r|]. split; [|auto].
    destruct Hty as [->|(sp4 & a & ty' & -> & Hs4 & Hs4' & Ha & Hty)]; [now left | right].
    exists sp4, (String a ty'). split; [reflexivity|].
    rewrite <- (all_ext _ _ _ cmatch_space) in Hs4'. split; [auto|].
    exists (String a ""), ty'. split; [reflexivity|]. split; [|exact Hty].
    exists a. rewrite cmatch_no_space. auto.
Qed.

(** ** The parser *)

(** No parsed line carries an expression: the parser never sets the
    field. *)
Lemma parseSymLine_expr_empty (line : string) (l : symLine) :
  parseSymLine line = Ret (l, None) -> expr l = "".
Proof.
  unfold parseSymLine.
  destruct (FindStringSubmatch linePat line) as [m|]; [|discriminate].
  destruct (atoi (group m 2)) as [ln|]; [|discriminate].
  destruct (atoi (group m 3)) as [col|]; [|discriminate].
  cbn [bind]. destruct (objKinds (group m 7)); [|discriminate].
  intros [= <-]. reflexivity.
Qed.

(** A line with an expression is never parsed back from its own text. *)
Lemma parseSymLine_String_loses_expr (l : symLine) :
  expr l <> "" -> parseSymLine (symLine_String l) <> Ret (l, None).
Proof.
  intros Hne H. apply parseSymLine_expr_empty in H. contradiction.
Qed.

(** C1, the failing input: the line for [Baz] is rendered with the
    expression and a space before the kind token; the pattern has no
    group for the expression, takes [Baz] for the kind token and [func]
    for the type text, and the parser returns an error.  Whatever the
    text, a line the parser returns has an empty expression. *)
Theorem parseSymLine_String_Baz :
  symLine_String line_Baz = "a.go:1:2: p q Baz func" /\
  parseSymLine (symLine_String line_Baz) =
    Ret (symLine_zero, Some (Errorf "invalid kind %q" "Baz")) /\
  (forall line l, parseSymLine line = Ret (l, None) -> expr l = "").
Proof.
  split; [|split]; [vm_compute; reflexivity .. | exact parseSymLine_expr_empty].
Qed.

Lemma line_shape_matched (line : string) :
  line_shape line <-> exists m, FindStringSubmatch linePat line = Some m.
Proof. now rewrite FindStringSubmatch_linePat, lang_linePat_shape. Qed.

(** C9 (as the code has it): a line that is not of the pattern's shape
    gets the "invalid line" error that carries the raw text, and the
    parser does not panic on it.  A line of the shape is accepted exactly
    when its kind token is one of const, type, var, func and its line and
    column numbers fit an [int]; otherwise the numbers make the parser
    panic, or the token gets an "invalid kind" error that carries it. *)
Theorem parseSymLine_accepts (line : string) :
  (~ line_shape line ->
   parseSymLine line = Ret (symLine_zero, Some (Errorf "invalid line %q" line)))
  /\
  ((exists l, parseSymLine line = Ret (l, None)) <->
   exists m, FindStringSubmatch linePat line = Some m /\
     In (group m 7) ["const"; "type"; "var"; "func"] /\
     strconv_Atoi (group m 2) <> None /\ strconv_Atoi (group m 3) <> None)
  /\
  (line_shape line ->
   exists m, FindStringSubmatch linePat line = Some m /\
     (parseSymLine line = Panic "bad number" \/
      parseSymLine line =
        Ret (symLine_zero, Some (Errorf "invalid kind %q" (group m 7))) \/
      exists l, parseSymLine line = Ret (l, None))).
Proof.
  split; [|split].
  - intros Hn. unfold parseSymLine.
    destruct (FindStringSubmatch linePat line) as [m|] eqn:E; [|reflexivity].
    exfalso. apply Hn, line_shape_matched. eauto.
  - unfold parseSymLine, atoi. split.
    + intros (l & H).
      destruct (FindStringSubmatch linePat line) as [m|]; [|discriminate].
      exists m. split; [reflexivity|].
      destruct (strconv_Atoi (group m 2)); [|discriminate].
      destruct (strconv_Atoi (group m 3)); [|discriminate].
      cbn [bind] in H.
      destruct (objKinds (group m 7)) eqn:Ek; [|discriminate].
      repeat split; try discriminate.
      apply objKinds_known. congruence.
    + intros (m & -> & Hk & H2 & H3).
      destruct (strconv_Atoi (group m 2)); [|congruence].
      destruct (strconv_Atoi (group m 3)); [|congruence].
      cbn [bind]. apply objKinds_known in Hk.
      destruct (objKinds (group m 7)); [eauto | congruence].
  - intros Hs. apply line_shape_matched in Hs as (m & Hm).
    exists m. split; [assumption|].
    unfold parseSymLine, atoi. rewrite Hm.
    destruct (strconv_Atoi (group m 2)); [|now left].
    destruct (strconv_Atoi (group m 3)); [|now left].
    cbn [bind]. destruct (objKinds (group m 7)); [right; right; eauto | right; left; reflexivity].
Qed.

(** C9, the counterexample: two lines of the shape that are not
    accepted, one for its token, one for a number too large. *)
Lemma parseSymLine_rejects_shaped_lines :
  (line_shape "a.go:1:2: p q Bazfunc" /\
   parseSymLine "a.go:1:2: p q Bazfunc" =
     Ret (symLine_zero, Some (Errorf "invalid kind %q" "Bazfunc")))
  /\
  (line_shape "a.go:1:99999999999999999999: p q func" /\
   parseSymLine "a.go:1:99999999999999999999: p q func" = Panic "bad number").
Proof.
  split; (split; [apply line_shape_matched; eexists; vm_compute; reflexivity
                 | vm_compute; reflexivity]).
Qed.

(** X1: the pattern finds a match in a line exactly when the line has
    the shape [line_shape] spells out. *)
Theorem linePat_matches_shape (line : string) :
  (exists m, FindStringSubmatch linePat line = Some m) <-> line_shape line.
Proof. symmetry. apply line_shape_matched. Qed.

(** X3: a line put together from well-formed fields in the pattern's
    grammar parses, without an error, to the line with these fields and
    an empty expression. *)
Theorem parseSymLine_fields
    (file ln col sp1 owner sp2 refer sp3 : string) (n c : Z)
    (loc : bool) (k : ObjKind) (plus : bool) (ty : string) :
  line_fields file ln col sp1 owner sp2 refer sp3 n c ->
  In k [Con; Typ; Var; Fun] ->
  type_text ty = true ->
  parseSymLine (grammar_line file ln col sp1 owner sp2 refer sp3 loc k plus ty) =
  Ret (mkSymLine (mkPosition file 0 n c) owner refer loc k plus "" ty, None).
Proof.
  intros ((Hf1 & Hf2) & (Hl1 & Hl2 & Hl3) & (Hc1 & Hc2 & Hc3) & (Ha1 & Ha2)
          & (Ho1 & Ho2) & (Hb1 & Hb2) & (Hr1 & Hr2) & (Hd1 & Hd2)) Hk Hty.
  now apply parseSymLine_grammar_line.
Qed.

Lemma parseSymLine_fields_witness :
  parseSymLine "src/a.go:12:7:  some/pkg other/pkg localvar+ map[string]int" =
  Ret (mkSymLine (mkPosition "src/a.go" 0 12 7) "some/pkg" "other/pkg"
         true Var true "" "map[string]int", None).
Proof.
  apply (parseSymLine_fields "src/a.go" "12" "7" "  " "some/pkg" " " "other/pkg" " "
           12 7 true Var true "map[string]int");
    [ repeat split; discriminate | cbn; auto | reflexivity ].
Defined.

(** ** Numbers in decimal *)

Lemma digits_val_acc (d : Decimal.uint) :
  forall acc : positive,
    digits_val (Zpos acc) (NilEmpty.string_of_uint d)
    = Some (Zpos (Pos.of_uint_acc d acc)).
Proof.
  induction d; intros acc; cbn [NilEmpty.string_of_uint digits_val Pos.of_uint_acc];
    [reflexivity | ..];
    (match goal with |- (if is_digit ?c then _ else _) = _ =>
       change (is_digit c) with true; cbv iota end;
     match goal with |- context [digit_val ?c] =>
       let v := eval vm_compute in (digit_val c) in change (digit_val c) with v end;
     rewrite <- IHd; f_equal; rewrite ?Pos2Z.inj_add, ?Pos2Z.inj_mul; lia).
Qed.

Lemma digits_val_of_uint (d : Decimal.uint) :
  digits_val 0 (NilEmpty.string_of_uint d) = Some (Z.of_N (Pos.of_uint d)).
Proof.
  induction d; cbn [NilEmpty.string_of_uint digits_val Pos.of_uint];
    [reflexivity | ..];
    match goal with |- (if is_digit ?c then _ else _) = _ =>
      change (is_digit c) with true; cbv iota end;
    [exact IHd | ..];
    (match goal with |- digits_val ?z _ = _ =>
       let z' := eval cbv in z in change z with z' end;
     now rewrite digits_val_acc).
Qed.

Lemma all_digit_string_of_uint (d : Decimal.uint) :
  Str.all is_digit (NilEmpty.string_of_uint d) = true.
Proof. induction d; cbn; auto. Qed.

Lemma itoa_pos (p : positive) :
  itoa (Zpos p) = NilEmpty.string_of_uint (Pos.to_uint p).
Proof.
  unfold itoa, Z.to_int, NilZero.string_of_int, NilZero.string_of_uint.
  pose proof (DecimalPos.Unsigned.to_uint_nonnil p) as Hn.
  destruct (Pos.to_uint p); [contradiction | reflexivity ..].
Qed.

(** A number that fits an [int] is read back from its decimal text,
    which is a non-empty run of digits. *)
Lemma strconv_Atoi_itoa (n : Z) :
  0 <= n <= maxInt ->
  strconv_Atoi (itoa n) = Some n /\ itoa n <> "" /\ Str.all is_digit (itoa n) = true.
Proof.
  intros [H0 Hmax]. destruct n as [|p|p]; [repeat split; discriminate | | lia].
  rewrite itoa_pos.
  pose proof (digits_val_of_uint (Pos.to_uint p)) as Hv.
  rewrite DecimalPos.Unsigned.of_to in Hv. cbn [Z.of_N] in Hv.
  pose proof (all_digit_string_of_uint (Pos.to_uint p)) as Hd.
  pose proof (DecimalPos.Unsigned.to_uint_nonnil p) as Hn.
  destruct (NilEmpty.string_of_uint (Pos.to_uint p)) as [|a s] eqn:E.
  { destruct (Pos.to_uint p); try discriminate E. contradiction. }
  split; [|split; [discriminate | assumption]].
  unfold strconv_Atoi.
  cbn [Str.all] in Hd. apply andb_true_iff in Hd as [Ha _].
  destruct (Ascii.eqb_spec a "-") as [->|_]; [discriminate Ha|].
  destruct (Ascii.eqb_spec a "+") as [->|_]; [discriminate Ha|].
  rewrite Hv.
  assert (Hr : (minInt <=? Z.pos p) && (Z.pos p <=? maxInt) = true).
  { apply andb_true_iff. split; [apply Z.leb_le; unfold minInt, intSize; lia
                                | now apply Z.leb_le]. }
  now rewrite Hr.
Qed.

(** X2: a line without an expression, with a file name that holds no
    colon, packages without white space, a position that fits and a type
    text the pattern takes whole, is parsed back from its text. *)
Lemma parseSymLine_String_roundtrip (l : symLine) :
  expr l = "" ->
  Offset (pos l) = 0 ->
  Filename (pos l) <> "" -> Str.all not_colon (Filename (pos l)) = true ->
  0 < Line (pos l) <= maxInt ->
  0 <= Column (pos l) <= maxInt ->
  exprPkg l <> "" -> Str.all no_space (exprPkg l) = true ->
  referPkg l <> "" -> Str.all no_space (referPkg l) = true ->
  In (kind l) [Con; Typ; Var; Fun] ->
  type_text (exprType l) = true ->
  parseSymLine (symLine_String l) = Ret (l, None).
Proof.
  intros He Ho Hf1 Hf2 Hl Hc Hp1 Hp2 Hr1 Hr2 Hk Hty.
  assert (Hv : Position_IsValid (pos l) = true) by (apply Z.ltb_lt; lia).
  destruct (strconv_Atoi_itoa (Line (pos l))) as (Hl1 & Hl2 & Hl3); [lia|].
  destruct (strconv_Atoi_itoa (Column (pos l))) as (Hc1 & Hc2 & Hc3); [assumption|].
  rewrite symLine_String_eq, (Position_String_valid _ Hv Hf1), He, !append_assoc.
  change (parseSymLine
            (grammar_line (Filename (pos l)) (itoa (Line (pos l)))
               (itoa (Column (pos l))) " " (exprPkg l) " " (referPkg l) "  "
               (local l) (kind l) (definition l) (exprType l))
          = Ret (l, None)).
  rewrite (parseSymLine_grammar_line _ _ _ " " _ " " _ "  "
             Hf1 Hf2 Hl2 Hl3 Hc2 Hc3 ltac:(discriminate) eq_refl Hp1 Hp2
             ltac:(discriminate) eq_refl Hr1 Hr2 ltac:(discriminate) eq_refl
             _ _ Hl1 Hc1 _ _ _ _ Hk Hty).
  destruct l as [[f o ln c] ep rp lo k d e t]. cbn in *. now subst.
Qed.

Lemma parseSymLine_String_roundtrip_witness :
  symLine_String line_func = "a.go:10:2: p q  localfunc+ int" /\
  parseSymLine (symLine_String line_func) = Ret (line_func, None).
Proof.
  split; [reflexivity|].
  apply (parseSymLine_String_roundtrip line_func);
    first [reflexivity | discriminate | (split; [reflexivity | discriminate])
          | (split; discriminate) | (cbn; auto 6) ].
Defined.

(** ** The traversal *)

Section NodeInduction.

Variable P : Node -> Prop.

Hypothesis P_Ident : forall id, P (Ident_ id).
Hypothesis P_Selector : forall x sel, P x -> P (SelectorExpr x sel).
Hypothesis P_KeyValue : forall k v, P k -> P v -> P (KeyValueExpr k v).
Hypothesis P_Star : forall x, P x -> P (StarExpr x).
Hypothesis P_Import : forall name path, P (ImportSpec name path).
Hypothesis P_FuncType : forall ps rs, Forall P ps -> Forall P rs -> P (FuncType ps rs).
Hypothesis P_FuncDecl : forall recv name typ body,
  (forall r, recv = Some r -> P r) -> P typ -> (forall b, body = Some b -> P b) ->
  P (FuncDecl recv name typ body).
Hypothesis P_File : forall name decls, Forall P decls -> P (File name decls).
Hypothesis P_Other : forall children, Forall P children -> P (OtherNode children).

(** Induction over a tree and the lists of trees inside it. *)
Fixpoint Node_induction (n : Node) : P n :=
  let all :=
    fix all (ns : list Node) : Forall P ns :=
      match ns with
      | [] => Forall_nil P
      | n' :: ns' => Forall_cons n' (Node_induction n') (all ns')
      end in
  let opt (o : option Node) : forall r, o = Some r -> P r :=
    match o with
    | Some r' => fun r E =>
        match E in _ = o' return match o' with Some r0 => P r0 | None => True end with
        | eq_refl => Node_induction r'
        end
    | None => fun r E =>
        match E in _ = o' return match o' with Some r0 => P r0 | None => True end with
        | eq_refl => I
        end
    end in
  match n with
  | Ident_ id => P_Ident id
  | SelectorExpr x sel => P_Selector x sel (Node_induction x)
  | KeyValueExpr k v => P_KeyValue k v (Node_induction k) (Node_induction v)
  | StarExpr x => P_Star x (Node_induction x)
  | ImportSpec name path => P_Import name path
  | FuncType ps rs => P_FuncType ps rs (all ps) (all rs)
  | FuncDecl recv name typ body =>
      P_FuncDecl recv name typ body (opt recv) (Node_induction typ) (opt body)
  | File name decls => P_File name decls (all decls)
  | OtherNode children => P_Other children (all children)
  end.

End NodeInduction.

Section TraversalFacts.

Context {C : Collaborators}.
Variable visitf : symInfo -> bool.

Lemma walk_File name decls st :
  walk visitf (File name decls) st =
  if negb (ok st) then st else walks visitf decls st.
Proof.
  simpl. destruct (negb (ok st)); [reflexivity|].
  revert st. induction decls as [|d ds IH]; intros st; simpl; [reflexivity | apply IH].
Qed.

Lemma walk_OtherNode children st :
  walk visitf (OtherNode children) st =
  if negb (ok st) then st else walks visitf children st.
Proof.
  simpl. destruct (negb (ok st)); [reflexivity|].
  revert st. induction children as [|d ds IH]; intros st; simpl; [reflexivity | apply IH].
Qed.

Lemma walk_FuncType ps rs st :
  walk visitf (FuncType ps rs) st =
  if negb (ok st) then st else walks visitf rs (walks visitf ps st).
Proof.
  simpl. destruct (negb (ok st)); [reflexivity|].
  assert (L : forall ns st0,
    (fix walks (ns : list Node) (st : wstate) {struct ns} : wstate :=
       match ns with
       | [] => st
       | n' :: ns' => walks ns' (walk visitf n' st)
       end) ns st0 = walks visitf ns st0).
  { induction ns as [|d ds IH]; intros st0; simpl; [reflexivity | apply IH]. }
  now rewrite !L.
Qed.

(** The flag is read at the top of every visit: once it is unset a walk
    changes nothing and calls nothing. *)
Lemma walk_aborted n st : ok st = false -> walk visitf n st = st.
Proof. intros H. destruct n; simpl; rewrite H; reflexivity. Qed.

Lemma walks_aborted ns st : ok st = false -> walks visitf ns st = st.
Proof.
  induction ns as [|n ns IH]; intros H; simpl; [reflexivity|].
  rewrite (walk_aborted n st H). now apply IH.
Qed.

Lemma walks_app ns1 ns2 st :
  walks visitf (ns1 ++ ns2)%list st = walks visitf ns2 (walks visitf ns1 st).
Proof. revert st. induction ns1 as [|n ns IH]; intros st; simpl; [reflexivity | apply IH]. Qed.

(** A dot import unsets the flag and calls nothing. *)
Lemma walk_dot_import p o path st :
  walk visitf (ImportSpec (Some (mkIdent p "." o)) path) st = mkW false (calls st).
Proof. destruct st as [[|] cs]; reflexivity. Qed.

Lemma assign_ok_calls e l st :
  exists more, calls (assign_ok visitf e l st) = (calls st ++ more)%list.
Proof.
  unfold assign_ok. destruct (visitExpr visitf e l) as [b call]. simpl. eauto.
Qed.

Lemma walks_calls ns :
  Forall (fun n => forall st, exists more, calls (walk visitf n st) = (calls st ++ more)%list) ns ->
  forall st, exists more, calls (walks visitf ns st) = (calls st ++ more)%list.
Proof.
  induction 1 as [|n ns Hn _ IH]; intros st; simpl.
  - exists []. now rewrite List.app_nil_r.
  - destruct (Hn st) as (m1 & E1). destruct (IH (walk visitf n st)) as (m2 & E2).
    exists (m1 ++ m2)%list. now rewrite E2, E1, List.app_assoc.
Qed.

(** What the callback has received is never taken back. *)
Lemma walk_calls n :
  forall st, exists more, calls (walk visitf n st) = (calls st ++ more)%list.
Proof.
  assert (Hnil : forall l : list symInfo, exists more, l = (l ++ more)%list)
    by (intros l; exists []; now rewrite List.app_nil_r).
  induction n using Node_induction; intros st.
  - simpl. destruct (negb (ok st)); [apply Hnil | apply assign_ok_calls].
  - simpl. destruct (negb (ok st)); [apply Hnil|].
    destruct (IHn st) as (m1 & E1).
    destruct (assign_ok_calls (SelectorExpr n sel) false (walk visitf n st)) as (m2 & E2).
    exists (m1 ++ m2)%list. now rewrite E2, E1, List.app_assoc.
  - simpl. destruct (negb (ok st)); [apply Hnil | apply IHn2].
  - simpl. destruct (negb (ok st)); [apply Hnil | apply IHn].
  - simpl. destruct (negb (ok st)); [apply Hnil|].
    destruct (is_dot name); [apply Hnil|].
    destruct name as [id|]; [apply assign_ok_calls | apply Hnil].
  - rewrite walk_FuncType. destruct (negb (ok st)); [apply Hnil|].
    destruct (walks_calls ps H st) as (m1 & E1).
    destruct (walks_calls rs H0 (walks visitf ps st)) as (m2 & E2).
    exists (m1 ++ m2)%list. now rewrite E2, E1, List.app_assoc.
  - simpl. destruct (negb (ok st)); [apply Hnil|].
    set (st1 := match recv with Some r => walk visitf r st | None => st end).
    assert (E1 : exists m1, calls st1 = (calls st ++ m1)%list).
    { subst st1. destruct recv as [r|]; [apply (H r eq_refl) | apply Hnil]. }
    set (st2 := if negb (ok st1) then st1 else assign_ok visitf _ false st1).
    assert (E2 : exists m2, calls st2 = (calls st1 ++ m2)%list).
    { subst st2. destruct (negb (ok st1)); [apply Hnil | apply assign_ok_calls]. }
    destruct (IHn st2) as (m3 & E3).
    set (st3 := walk visitf n st2) in *.
    assert (E4 : exists m4,
      calls (match body with Some b => walk visitf b st3 | None => st3 end)
      = (calls st3 ++ m4)%list).
    { destruct body as [b|]; [apply (H0 b eq_refl) | apply Hnil]. }
    destruct E1 as (m1 & E1), E2 as (m2 & E2), E4 as (m4 & E4).
    exists (m1 ++ m2 ++ m3 ++ m4)%list.
    now rewrite E4, E3, E2, E1, !List.app_assoc.
  - rewrite walk_File. destruct (negb (ok st)); [apply Hnil | now apply walks_calls].
  - rewrite walk_OtherNode. destruct (negb (ok st)); [apply Hnil | now apply walks_calls].
Qed.

(** C3: a dot import unsets the flag without a call; with the flag unset
    no node is visited further and no callback is called; what was called
    before stays.  So a file with a dot import in a top-level declaration
    reports exactly what the file cut off before that clause reports, and
    the next file starts its own traversal with the flag set. *)
Theorem dot_import_aborts_file (importPath : string) (kindMask : Z) :
  (forall p o path st,
     walk visitf (ImportSpec (Some (mkIdent p "." o)) path) st = mkW false (calls st))
  /\
  (forall n st, ok st = false -> walk visitf n st = st)
  /\
  (forall n st, exists more, calls (walk visitf n st) = (calls st ++ more)%list)
  /\
  (forall pkgName decls1 specs1 p o path specs2 decls2,
     visitExprs visitf importPath
       (File pkgName
          (decls1
           ++ OtherNode (specs1 ++ ImportSpec (Some (mkIdent p "." o)) path :: specs2)
           :: decls2)%list) kindMask
     = visitExprs visitf importPath
         (File pkgName (decls1 ++ [OtherNode specs1])%list) kindMask)
  /\
  (forall f fs,
     visitFiles visitf importPath (f :: fs) kindMask
     = (visitExprs visitf importPath f kindMask
        ++ visitFiles visitf importPath fs kindMask)%list).
Proof.
  split; [exact walk_dot_import|].
  split; [exact walk_aborted|].
  split; [exact walk_calls|].
  split; [|reflexivity].
  intros pkgName decls1 specs1 p o path specs2 decls2.
  unfold visitExprs. rewrite !walk_File. cbn [ok negb].
  rewrite !walks_app. cbn [walks].
  set (st1 := walks visitf decls1 (mkW true [])).
  rewrite !walk_OtherNode.
  destruct (ok st1) eqn:E1; cbn [negb].
  - rewrite walks_app. cbn [walks]. rewrite walk_dot_import.
    rewrite (walks_aborted specs2) by reflexivity.
    rewrite (walks_aborted decls2) by reflexivity. reflexivity.
  - rewrite (walks_aborted decls2) by assumption. reflexivity.
Qed.

End TraversalFacts.

Section InitBinding.

Context {C : Collaborators}.
Variable visitf : symInfo -> bool.

Lemma walk_Ident id st :
  walk visitf (Ident_ id) st =
  if negb (ok st) then st else assign_ok visitf (Ident_ id) false st.
Proof. reflexivity. Qed.

(** C8 (as the code has it): the traversal binds the name of a function
    declaration to a new function object exactly when the declaration has
    no receiver and is named [init]; the identifier it then resolves for
    the name carries the binding.  For every other declaration the name
    is resolved as it stands. *)
Theorem init_binding_synthesized
    (recv : option Node) (name : Ident) (typ : Node) (body : option Node)
    (st : wstate) :
  ((exists o, initBinding recv name = Some o) <-> recv = None /\ Name name = "init")
  /\
  (recv = None -> Name name = "init" ->
   initBinding recv name = Some (NewObj (NamePos name) Fun "init") /\
   walk visitf (FuncDecl recv name typ body) st =
   walks visitf
     (Ident_ (mkIdent (NamePos name) "init" (Some (NewObj (NamePos name) Fun "init")))
      :: typ :: option_nodes body) st)
  /\
  (~ (recv = None /\ Name name = "init") ->
   initBinding recv name = None /\
   walk visitf (FuncDecl recv name typ body) st =
   walks visitf (option_nodes recv ++ Ident_ name :: typ :: option_nodes body)%list st).
Proof.
  assert (Hbody : forall st0,
    match body with Some b => walk visitf b st0 | None => st0 end
    = walks visitf (option_nodes body) st0) by (intros; now destruct body).
  split; [|split].
  - unfold initBinding. destruct recv as [r|].
    + split; [intros (o & [=]) | intros [[=] _]].
    + destruct (String.eqb_spec (Name name) "init") as [E|E].
      * split; eauto.
      * split; [intros (o & [=]) | intros [_ ?]; contradiction].
  - intros -> E. unfold initBinding. rewrite E. cbn [String.eqb Ascii.eqb Bool.eqb].
    split; [reflexivity|].
    destruct (ok st) eqn:Eok.
    + cbn [walk walks]. rewrite Eok. cbn [negb initBinding bindName].
      rewrite E. cbn [String.eqb Ascii.eqb Bool.eqb bindName]. rewrite ?E.
      apply Hbody.
    + rewrite walk_aborted, walks_aborted by assumption. reflexivity.
  - intros Hn.
    assert (Hb : initBinding recv name = None).
    { unfold initBinding. destruct recv; [reflexivity|].
      destruct (String.eqb_spec (Name name) "init"); [|reflexivity].
      exfalso; apply Hn; auto. }
    split; [assumption|].
    destruct (ok st) eqn:Eok.
    + cbn [walk]. rewrite Eok, Hb. cbn [negb bindName].
      rewrite walks_app. cbn [walks]. rewrite walk_Ident, Hbody.
      now destruct recv.
    + rewrite walk_aborted, walks_aborted by assumption. reflexivity.
Qed.

End InitBinding.

(** C8, the counterexample: a function named [init] with a parameter
    gets the binding, and a method named [init] without parameters gets
    none. *)
Lemma initBinding_not_parameterless :
  (spec_init_decl func_init_param = false /\
   declBinding func_init_param = Some (NewObj 7 Fun "init"))
  /\
  (spec_init_decl method_init = true /\
   declBinding method_init = None).
Proof. repeat split. Qed.

(** The traversal on small files: what stands before the dot import is
    reported, nothing after it, and the next file is walked in full;
    the name of a function [init] is resolved with its new binding. *)
Example visitFiles_dot_import :
  map Info.pos
    (visitFiles (C := demo) (fun _ => true) "p" [file_dot; file_plain] 60)
  = [10; 40].
Proof. reflexivity. Qed.

Example visitExprs_init :
  map Info.referObj
    (visitExprs (C := demo) (fun _ => true) "p"
       (File (mkIdent 1 "main" None)
          [FuncDecl None init_name (FuncType [] []) (Some (OtherNode []))]) 60)
  = [Some (NewObj 7 Fun "init")].
Proof. reflexivity. Qed.

(** ** Printing *)

Section PrintingFacts.

Context {C : Collaborators}.

(** What [visitPrint] prints when it prints: the fields of the line. *)
Lemma visitPrint_line (info : symInfo) (kindMask : Z) (b : bool) (line : symLine) :
  visitPrint info kindMask = Ret (b, Some line) ->
  exists obj name,
    Info.referObj info = Some obj /\
    Z.land (kind_bit (Obj_Kind obj)) kindMask <> 0 /\
    (Info.universe info = true -> all = true) /\
    exprName (Info.expr info) = Some name /\
    positionToImportPath (position (Info.pos info)) = Ret (exprPkg line) /\
    (if Info.universe info then Ret "universe"
     else positionToImportPath (position (Info.referPos info))) = Ret (referPkg line) /\
    pos line = position (Info.pos info) /\
    local line = Info.local info /\
    kind line = Obj_Kind obj /\
    definition line = (Info.referPos info =? Info.pos info) /\
    expr line = name /\
    exprType line =
      (if printType then pretty_String (Type_Node (Info.exprType info)) else "").
Proof.
  unfold visitPrint, kind_bit.
  destruct (Info.referObj info) as [obj|]; [|discriminate].
  destruct (Z.eqb_spec (Z.land (uint_shl 1 (ObjKind_val (Obj_Kind obj))) kindMask) 0)
    as [|Hbit]; [discriminate|].
  destruct (Info.universe info && negb all) eqn:Eu; [discriminate|].
  destruct (positionToImportPath (position (Info.pos info))) as [ep|]; [|discriminate].
  cbn [bind].
  destruct (if Info.universe info then Ret "universe" else _) as [rp|]; [|discriminate].
  cbn [bind].
  destruct (exprName (Info.expr info)) as [name|]; [|discriminate].
  intros [= _ <-]. exists obj, name. cbn.
  repeat split; try assumption.
  intros Hu. rewrite Hu in Eu. now destruct all.
Qed.

(** When nothing filters the occurrence out and its file has a package,
    a line is printed. *)
Lemma visitPrint_prints (info : symInfo) (kindMask : Z) (obj : Object)
    (name importPath referPath : string) :
  Info.referObj info = Some obj ->
  Z.land (kind_bit (Obj_Kind obj)) kindMask <> 0 ->
  (Info.universe info = true -> all = true) ->
  exprName (Info.expr info) = Some name ->
  positionToImportPath (position (Info.pos info)) = Ret importPath ->
  (if Info.universe info then Ret "universe"
   else positionToImportPath (position (Info.referPos info))) = Ret referPath ->
  exists line, visitPrint info kindMask = Ret (true, Some line) /\
    exprPkg line = importPath /\ referPkg line = referPath /\ expr line = name.
Proof.
  intros Hobj Hbit Hall Hname Hpkg Hrefer. unfold visitPrint.
  rewrite Hobj. fold (kind_bit (Obj_Kind obj)).
  destruct (Z.eqb_spec (Z.land (kind_bit (Obj_Kind obj)) kindMask) 0); [contradiction|].
  assert (Eu : Info.universe info && negb all = false).
  { destruct (Info.universe info); [|reflexivity]. now rewrite Hall. }
  rewrite Eu, Hpkg. cbn [bind]. rewrite Hrefer. cbn [bind]. rewrite Hname.
  eexists. split; [reflexivity|]. cbn. auto.
Qed.

(** C5: an occurrence whose kind bit is not in the mask prints nothing,
    and neither does a universe occurrence without the include-all flag.
    A universe occurrence that is printed has the flag set and [universe]
    for its referenced package; with the flag set and its kind in the
    mask it is printed, once its file has a package. *)
Theorem visitPrint_filter (info : symInfo) (kindMask : Z) (obj : Object) :
  Info.referObj info = Some obj ->
  (Z.land (kind_bit (Obj_Kind obj)) kindMask = 0 ->
   visitPrint info kindMask = Ret (true, None))
  /\
  (Info.universe info = true -> all = false ->
   visitPrint info kindMask = Ret (true, None))
  /\
  (Info.universe info = true ->
   forall b line, visitPrint info kindMask = Ret (b, Some line) ->
     all = true /\ referPkg line = "universe")
  /\
  (Info.universe info = true -> all = true ->
   Z.land (kind_bit (Obj_Kind obj)) kindMask <> 0 ->
   forall name importPath,
     exprName (Info.expr info) = Some name ->
     positionToImportPath (position (Info.pos info)) = Ret importPath ->
     exists line, visitPrint info kindMask = Ret (true, Some line) /\
       referPkg line = "universe").
Proof.
  intros Hobj. split; [|split; [|split]].
  - intros Hbit. unfold visitPrint. rewrite Hobj.
    fold (kind_bit (Obj_Kind obj)). now rewrite Hbit.
  - intros Hu Hall. unfold visitPrint. rewrite Hobj, Hu, Hall.
    now destruct (_ =? 0).
  - intros Hu b line Hp.
    apply visitPrint_line in Hp as (_ & _ & _ & _ & Hall & _ & _ & Hr & _).
    rewrite Hu in Hr. split; [auto | congruence].
  - intros Hu Hall Hbit name importPath Hname Hpkg.
    destruct (visitPrint_prints info kindMask obj name importPath "universe")
      as (line & Hline & _ & Hr & _); auto.
    + now rewrite Hu.
    + eauto.
Qed.

(** C6: the expression text of a printed selector occurrence is the bare
    field name when the base resolves to a package, and otherwise the
    printed base type, a dot and the field name; [depointer] takes one
    pointer star off the base type and leaves any other type as it is. *)
Theorem selector_name (info : symInfo) (kindMask : Z) (x : Node) (sel : Ident)
    (b : bool) (line : symLine) :
  Info.expr info = SelectorExpr x sel ->
  visitPrint info kindMask = Ret (b, Some line) ->
  (Type_Kind (snd (ExprType x)) = Pkg -> expr line = Name sel)
  /\
  (Type_Kind (snd (ExprType x)) <> Pkg ->
   expr line =
     pretty_String (depointer (Type_Node (snd (ExprType x)))) ++ "." ++ Name sel)
  /\
  (forall t, depointer (Some (StarExpr t)) = Some t)
  /\
  (forall t, (forall t', t <> StarExpr t') -> depointer (Some t) = Some t).
Proof.
  intros He Hp.
  apply visitPrint_line in Hp
    as (_ & name & _ & _ & _ & Hname & _ & _ & _ & _ & _ & _ & <- & _).
  rewrite He in Hname. cbn [exprName] in Hname.
  destruct (_ && verbose); [discriminate|]. injection Hname as <-.
  split; [|split; [|split]].
  - intros ->. reflexivity.
  - intros Hk. destruct (ObjKind_eqb _ Pkg) eqn:E; [|reflexivity].
    apply ObjKind_eqb_eq in E. contradiction.
  - reflexivity.
  - intros t Ht. destruct t; try reflexivity. now destruct (Ht t).
Qed.


End PrintingFacts.

Lemma visitPrint_filter_witness :
  Info.referObj info_int = Some int_obj /\
  exists line,
    visitPrint (C := demo) info_int 8 = Ret (true, Some line) /\
    referPkg line = "universe".
Proof.
  split; [reflexivity|].
  destruct (visitPrint_filter (C := demo) info_int 8 int_obj eq_refl)
    as (_ & _ & _ & H).
  apply (H eq_refl eq_refl) with (name := "int") (importPath := "p");
    [discriminate | reflexivity | reflexivity].
Defined.

Lemma selector_name_witness :
  visitPrint (C := demo) info_field 16 =
    Ret (true,
         Some (mkSymLine (mkPosition "a.go" 9 1 9) "p" "p" false Var false "T.f" "")) /\
  expr (mkSymLine (mkPosition "a.go" 9 1 9) "p" "p" false Var false "T.f" "")
  = @pretty_String demo
      (depointer (Type_Node (snd (@ExprType demo (Ident_ (mkIdent 7 "v" None))))))
    ++ "." ++ "f".
Proof.
  split; [reflexivity|].
  refine (proj1 (proj2
    (selector_name (C := demo) info_field 16 (Ident_ (mkIdent 7 "v" None))
       (mkIdent 9 "f" None) true _ eq_refl eq_refl)) _).
  discriminate.
Defined.


(** ** More on kind masks *)

Lemma strings_Split_app (a b : string) (sep : ascii) :
  strings_Split (a ++ String sep b) sep
  = (strings_Split a sep ++ strings_Split b sep)%list.
Proof.
  induction a as [|c a IH]; simpl.
  - now rewrite Ascii.eqb_refl.
  - destruct (Ascii.eqb c sep); [now rewrite IH|].
    rewrite IH. pose proof (strings_Split_nonempty a sep) as Hne.
    destruct (strings_Split a sep) as [|t ts]; [contradiction | reflexivity].
Qed.

Lemma parseKindMask_loop_app (ks1 ks2 : list string) (mask0 : Z) :
  parseKindMask_loop (ks1 ++ ks2) mask0 =
  match parseKindMask_loop ks1 mask0 with
  | (mask1, None) => parseKindMask_loop ks2 mask1
  | (z, Some e) => (z, Some e)
  end.
Proof.
  revert mask0. induction ks1 as [|k ks IH]; intros mask0; simpl; [reflexivity|].
  destruct (objKinds k); [apply IH | reflexivity].
Qed.

Lemma parseKindMask_loop_lor (ks : list string) (m0 m1 : Z) :
  parseKindMask_loop ks (Z.lor m0 m1) =
  match parseKindMask_loop ks m1 with
  | (mask, None) => (Z.lor m0 mask, None)
  | (z, Some e) => (z, Some e)
  end.
Proof.
  revert m1. induction ks as [|k ks IH]; intros m1; simpl; [reflexivity|].
  destruct (objKinds k) as [c|]; [|reflexivity].
  now rewrite <- Z.lor_assoc, IH.
Qed.

(** X4: the mask of two lists joined by a comma is the bitwise or of
    their masks, and the first error of the two is the error of the
    whole. *)
Theorem parseKindMask_comma (a b : string) :
  parseKindMask (a ++ "," ++ b) =
  match parseKindMask a, parseKindMask b with
  | (ma, None), (mb, None) => (Z.lor ma mb, None)
  | (_, None), (z, Some e) => (z, Some e)
  | (z, Some e), _ => (z, Some e)
  end.
Proof.
  unfold parseKindMask.
  change (a ++ "," ++ b) with (a ++ String "," b).
  rewrite strings_Split_app, parseKindMask_loop_app.
  destruct (parseKindMask_loop (strings_Split a ",") 0) as [ma [e|]]; [reflexivity|].
  rewrite <- (Z.lor_0_r ma) at 1. rewrite parseKindMask_loop_lor.
  now destruct (parseKindMask_loop (strings_Split b ",") 0) as [mb [e|]].
Qed.

Lemma parseKindMask_loop_known (ks : list string) :
  forall mask0 mask,
    parseKindMask_loop ks mask0 = (mask, None) ->
    Forall (fun k => objKinds k <> None) ks.
Proof.
  induction ks as [|k ks IH]; intros mask0 mask; simpl; [constructor|].
  destruct (objKinds k) as [c|] eqn:E; [|discriminate].
  intros H. constructor; [congruence | eapply IH; eassumption].
Qed.

(** The bits of a mask returned without an error. *)
Lemma parseKindMask_bits (kinds : string) (mask : Z) :
  parseKindMask kinds = (mask, None) ->
  forall i, Z.testbit mask i = true <->
    exists k c, In k (strings_Split kinds ",") /\ objKinds k = Some c /\ i = ObjKind_val c.
Proof.
  unfold parseKindMask. intros Hp i.
  destruct (parseKindMask_loop_ok _ (parseKindMask_loop_known _ _ _ Hp) 0)
    as (mask' & Hm & Hbits).
  rewrite Hp in Hm. injection Hm as <-.
  rewrite Hbits, Z.testbit_0_l. split; [intros [?|?]; [discriminate | assumption] | auto].
Qed.

Lemma parseKindMask_tokens_eq (a b : string) (ma mb : Z) :
  parseKindMask a = (ma, None) ->
  parseKindMask b = (mb, None) ->
  (forall k, In k (strings_Split a ",") <-> In k (strings_Split b ",")) ->
  ma = mb.
Proof.
  intros Ha Hb Hsame. apply Z.bits_inj. intros i. apply Bool.eq_true_iff_eq.
  rewrite (parseKindMask_bits a ma Ha i), (parseKindMask_bits b mb Hb i).
  split; intros (k & c & Hin & Hk & Hi); exists k, c; (split; [|auto]);
    now apply Hsame.
Qed.

(** X5: a mask depends on the tokens listed only, not on their order or
    on repetitions. *)
Theorem parseKindMask_same_tokens (a b : string) (ma mb : Z) :
  parseKindMask a = (ma, None) ->
  parseKindMask b = (mb, None) ->
  (forall k, In k (strings_Split a ",") <-> In k (strings_Split b ",")) ->
  ma = mb.
Proof. exact (parseKindMask_tokens_eq a b ma mb). Qed.

Lemma parseKindMask_same_tokens_witness :
  parseKindMask "var,func,var" = (48, None) /\
  parseKindMask "func,var" = (48, None) /\ 48 = 48.
Proof.
  split; [reflexivity|]. split; [reflexivity|].
  apply (parseKindMask_same_tokens "var,func,var" "func,var" 48 48);
    [reflexivity | reflexivity |].
  intros k; cbn; tauto.
Defined.

Lemma no_comma_kind_names :
  Forall (fun k => Str.all (fun a => negb (Ascii.eqb a ",")) k = true)
    (map fst objKinds_entries).
Proof. repeat constructor. Qed.

(** X6: whatever the order in which the map yields its keys, the default
    of the kinds flag parses, without an error, to the mask of all four
    kinds. *)
Theorem parseKindMask_allKinds (order : list string) :
  Permutation order (map fst objKinds_entries) ->
  parseKindMask (allKinds order) = (60, None).
Proof.
  intros Hperm. unfold allKinds.
  assert (Hne : order <> []).
  { intros ->. apply Permutation_nil in Hperm. discriminate. }
  assert (Hnc : Forall (fun k => Str.all (fun a => negb (Ascii.eqb a ",")) k = true) order).
  { apply Forall_forall. intros k Hk.
    apply (proj1 (Forall_forall _ _) no_comma_kind_names k).
    apply (Permutation_in _ Hperm Hk). }
  assert (Hsplit := strings_Split_Join order "," Hne Hnc).
  assert (Hknown : Forall (fun k => objKinds k <> None) order).
  { apply Forall_forall. intros k Hk. apply objKinds_known.
    apply (Permutation_in _ Hperm Hk). }
  destruct (parseKindMask_loop_ok order Hknown 0) as (mask & Hm & _).
  assert (Hp : parseKindMask (strings_Join order ",") = (mask, None))
    by (unfold parseKindMask; now rewrite Hsplit).
  rewrite Hp. f_equal.
  apply (parseKindMask_tokens_eq (strings_Join order ",") "const,type,var,func");
    [assumption | reflexivity |].
  intros k. rewrite Hsplit. split; intros Hk.
  - apply (Permutation_in _ Hperm Hk).
  - apply (Permutation_in _ (Permutation_sym Hperm) Hk).
Qed.

Lemma parseKindMask_allKinds_witness :
  parseKindMask (allKinds ["func"; "var"; "const"; "type"]) = (60, None).
Proof.
  apply (parseKindMask_allKinds ["func"; "var"; "const"; "type"]).
  apply NoDup_Permutation.
  - repeat constructor; cbn; intuition discriminate.
  - repeat constructor; cbn; intuition discriminate.
  - intros k; cbn; tauto.
Defined.


Lemma kind_bit_pow (c : ObjKind) : kind_bit c = 2 ^ ObjKind_val c.
Proof. destruct c; reflexivity. Qed.

Lemma ObjKind_val_inj (a b : ObjKind) : ObjKind_val a = ObjKind_val b -> a = b.
Proof. destruct a, b; simpl; intros H; try reflexivity; discriminate H. Qed.

(** The test of [visitPrint] on a mask reads the bit of the kind. *)
Lemma kind_bit_land (c : ObjKind) (mask : Z) :
  Z.land (kind_bit c) mask <> 0 <-> Z.testbit mask (ObjKind_val c) = true.
Proof.
  rewrite kind_bit_pow.
  assert (Hv : 0 <= ObjKind_val c) by (destruct c; simpl; lia).
  split.
  - intros Hn. destruct (Z.testbit mask (ObjKind_val c)) eqn:E; [reflexivity|].
    exfalso. apply Hn. apply Z.bits_inj. intros i.
    rewrite Z.land_spec, Z.bits_0.
    destruct (Z.eq_dec i (ObjKind_val c)) as [->|Hi].
    + now rewrite E, andb_false_r.
    + now rewrite (Z.pow2_bits_false _ _ (not_eq_sym Hi)).
  - intros Hb Hz.
    assert (Ht : Z.testbit (Z.land (2 ^ ObjKind_val c) mask) (ObjKind_val c) = true)
      by (rewrite Z.land_spec, Hb, Z.pow2_bits_true by assumption; reflexivity).
    rewrite Hz, Z.bits_0 in Ht. discriminate.
Qed.

Section RequestedKinds.

Context {C : Collaborators}.

(** X7: with a mask parsed from the kinds flag, the kind token of every
    printed line is one of the tokens the flag lists. *)
Theorem printed_kind_requested
    (kinds : string) (mask : Z) (info : symInfo) (b : bool) (line : symLine) :
  parseKindMask kinds = (mask, None) ->
  visitPrint info mask = Ret (b, Some line) ->
  In (ObjKind_String (kind line)) (strings_Split kinds ",").
Proof.
  intros Hp Hv.
  apply visitPrint_line in Hv
    as (obj & name & _ & Hbit & _ & _ & _ & _ & _ & _ & -> & _).
  apply kind_bit_land in Hbit.
  apply (parseKindMask_bits kinds mask Hp) in Hbit as (k & c & Hin & Hk & Hc).
  apply ObjKind_val_inj in Hc. subst c.
  apply objKinds_Some in Hk.
  destruct Hk as [[-> ->]|[[-> ->]|[[-> ->]|[-> ->]]]]; exact Hin.
Qed.

End RequestedKinds.

Lemma printed_kind_requested_witness :
  In (ObjKind_String
        (kind (mkSymLine (mkPosition "a.go" 5 1 5) "p" "universe" false Typ false "int" "")))
     (strings_Split "func,type" ",").
Proof.
  apply (printed_kind_requested (C := demo) "func,type" 40 info_int true);
    reflexivity.
Defined.


(** ** What an accepted line looks like *)

(** The matcher with the submatches it hands on. *)
Lemma run_sound_caps r :
  forall pos s cs k res,
    run r pos s cs k = Some res ->
    exists m rest cs',
      s = m ++ rest /\ langc r pos m rest cs cs' /\ k m rest cs' = Some res.
Proof.
  induction r as [| |l|c|c|c|r IH|r1 IH1 r2 IH2|n r IH]; intros pos s cs k res; simpl.
  - destruct (Nat.eqb_spec pos 0); [|discriminate].
    intros H. exists "", s, cs. auto.
  - destruct s; [|discriminate]. intros H. exists "", "", cs. auto.
  - destruct (strip l s) as [rest|] eqn:E; [|discriminate].
    intros H. exists l, rest, cs. split; [now apply strip_Some | auto].
  - destruct s as [|a s]; [discriminate|].
    destruct (cmatch c a) eqn:Ha; [|discriminate].
    intros H. exists (String a ""), s, cs. split; [reflexivity|]. split; [eauto|assumption].
  - unfold plus_match. destruct s as [|a s]; [discriminate|].
    destruct (cmatch c a) eqn:Ha; [|discriminate].
    intros H. apply star_match_sound in H as (m & rest & -> & Hm & Hk).
    exists (String a m), rest, cs. simpl. rewrite Ha, Hm.
    repeat split; [discriminate | assumption].
  - intros H. apply star_match_sound in H as (m & rest & -> & Hm & Hk).
    exists m, rest, cs. auto.
  - destruct (run r pos s cs k) as [r'|] eqn:E.
    + intros [= <-]. apply IH in E as (m & rest & cs' & -> & Hl & Hk).
      exists m, rest, cs'. auto.
    + intros H. exists "", s, cs. auto.
  - intros H. apply IH1 in H as (m1 & s1 & cs1 & -> & Hl1 & H).
    apply IH2 in H as (m2 & s2 & cs2 & -> & Hl2 & H).
    exists (m1 ++ m2), s2, cs2. rewrite append_assoc. split; [reflexivity|].
    split; [|assumption]. exists m1, m2, cs1. auto.
  - intros H. apply IH in H as (m & rest & cs' & -> & Hl & Hk).
    exists m, rest, ((n, m) :: cs'). split; [reflexivity|]. split; [eauto | assumption].
Qed.

(** The submatches of [linePat] are the pieces of the line, in order. *)
Lemma linePat_groups_sound (line : string) (m : caps) :
  FindStringSubmatch linePat line = Some m ->
  exists sp1 sp2 sp3 tail,
    line = group m 1 ++ ":" ++ group m 2 ++ ":" ++ group m 3 ++ ":" ++ sp1
           ++ group m 4 ++ sp2 ++ group m 5 ++ sp3
           ++ group m 6 ++ group m 7 ++ group m 8 ++ tail /\
    (group m 1 <> "" /\ Str.all not_colon (group m 1) = true) /\
    (group m 2 <> "" /\ Str.all is_digit (group m 2) = true) /\
    (group m 3 <> "" /\ Str.all is_digit (group m 3) = true) /\
    (sp1 <> "" /\ Str.all is_space sp1 = true) /\
    (group m 4 <> "" /\ Str.all (fun a => negb (is_blank a)) (group m 4) = true) /\
    (sp2 <> "" /\ Str.all is_space sp2 = true) /\
    (group m 5 <> "" /\ Str.all no_space (group m 5) = true) /\
    (sp3 <> "" /\ Str.all is_space sp3 = true) /\
    (group m 6 = "" \/ group m 6 = "local") /\
    (group m 7 <> "" /\ Str.all token_byte (group m 7) = true) /\
    (group m 8 = "" \/ group m 8 = "+") /\
    type_tail tail (if String.eqb (group m 9) "" then "" else group m 10).
Proof.
  unfold FindStringSubmatch. intros H. rewrite find_from_eq in H.
  destruct (run linePat 0 line [] _) as [res|] eqn:E.
  2:{ destruct line as [|a line]; [discriminate|].
      unfold linePat in H; cbn [cat] in H. now rewrite find_from_not_at_start in H. }
  injection H as ->.
  apply run_sound_caps in E as (m0 & rest & cs' & -> & Hl & Hk).
  injection Hk as <-.
  unfold linePat in Hl; cbn [cat langc] in Hl.
  destruct Hl as (? & ? & ? & -> & (-> & _ & ->) & H).
  destruct H as (g1 & ? & ? & -> & (? & ([Hg1 Hg1'] & ->) & ->) & H).
  destruct H as (? & ? & ? & -> & (-> & ->) & H).
  destruct H as (g2 & ? & ? & -> & (? & ([Hg2 Hg2'] & ->) & ->) & H).
  destruct H as (? & ? & ? & -> & (-> & ->) & H).
  destruct H as (g3 & ? & ? & -> & (? & ([Hg3 Hg3'] & ->) & ->) & H).
  destruct H as (? & ? & ? & -> & (-> & ->) & H).
  destruct H as (sp1 & ? & ? & -> & ([Hs1 Hs1'] & ->) & H).
  destruct H as (g4 & ? & ? & -> & (? & ([Hg4 Hg4'] & ->) & ->) & H).
  destruct H as (sp2 & ? & ? & -> & ([Hs2 Hs2'] & ->) & H).
  destruct H as (g5 & ? & ? & -> & (? & ([Hg5 Hg5'] & ->) & ->) & H).
  destruct H as (sp3 & ? & ? & -> & ([Hs3 Hs3'] & ->) & H).
  destruct H as (g6 & ? & cs6 & -> & Hq6 & H).
  destruct H as (g7 & ? & ? & -> & (? & ([Hg7 Hg7'] & ->) & ->) & H).
  destruct H as (g8 & ? & cs8 & -> & Hq8 & H).
  destruct H as (tail & ? & cs9 & -> & Hq9 & (-> & -> & ->)).
  rewrite (all_ext _ _ _ cmatch_not_colon) in Hg1'.
  rewrite (all_ext _ _ _ cmatch_digit) in Hg2'.
  rewrite (all_ext _ _ _ cmatch_digit) in Hg3'.
  rewrite (all_ext _ _ _ cmatch_space) in Hs1'.
  rewrite (all_ext _ _ _ cmatch_not_blank) in Hg4'.
  rewrite (all_ext _ _ _ cmatch_space) in Hs2'.
  rewrite (all_ext _ _ _ cmatch_no_space) in Hg5'.
  rewrite (all_ext _ _ _ cmatch_space) in Hs3'.
  rewrite (all_ext _ _ _ cmatch_token) in Hg7'.
  exists sp1, sp2, sp3, tail.
  destruct Hq6 as [[-> ->]|(? & (-> & ->) & ->)];
    destruct Hq8 as [[-> ->]|(? & (-> & ->) & ->)];
    destruct Hq9 as [[-> ->]|(? & (sp4 & ty & ? & -> & ([Hs4 Hs4'] & ->)
       & (? & (? & ty' & ? & -> & ((a & -> & Ha) & ->) & (Hty' & ->)) & ->)) & ->)];
    cbn [group Nat.eqb];
    (split; [rewrite ?append_nil_r; cbn [append]; rewrite ?append_nil_r; reflexivity|]);
    repeat (split; [solve [auto] |]);
    try (left; split; reflexivity);
    (right; exists sp4;
     rewrite (all_ext _ _ _ cmatch_space) in Hs4';
     rewrite cmatch_no_space in Ha;
     rewrite (all_ext _ _ _ cmatch_any) in Hty';
     destruct sp4 as [|c4 sp4]; [contradiction|];
     cbn [append String.eqb];
     repeat split; try assumption; try discriminate;
     cbn [type_text]; now rewrite Ha, Hty').
Qed.


(** A run of digits has a value that is not negative and stays below
    the next power of ten. *)
Lemma digits_val_bound (s : string) :
  Str.all is_digit s = true ->
  forall acc, 0 <= acc ->
    exists v, digits_val acc s = Some v /\
      acc * 10 ^ Z.of_nat (String.length s) <= v
        < (acc + 1) * 10 ^ Z.of_nat (String.length s).
Proof.
  induction s as [|a s IH]; intros Hall acc Hacc.
  - exists acc. cbn. split; [reflexivity | lia].
  - cbn [Str.all] in Hall. apply andb_true_iff in Hall as [Ha Hs].
    cbn [digits_val String.length]. rewrite Ha.
    assert (Hd : 0 <= digit_val a <= 9).
    { unfold digit_val, is_digit in *. apply andb_true_iff in Ha as [H1 H2].
      apply Nat.leb_le in H1, H2. lia. }
    destruct (IH Hs (10 * acc + digit_val a)) as (v & Hv & Hb); [lia|].
    exists v. split; [assumption|].
    rewrite Nat2Z.inj_succ, Z.pow_succ_r by lia.
    assert (0 < 10 ^ Z.of_nat (String.length s)) by (apply Z.pow_pos_nonneg; lia).
    nia.
Qed.

(** [strconv.Atoi] on a run of digits: the value, when it fits. *)
Lemma strconv_Atoi_digits (s : string) :
  s <> "" -> Str.all is_digit s = true ->
  exists v, digits_val 0 s = Some v /\ 0 <= v /\
    strconv_Atoi s = (if v <=? maxInt then Some v else None).
Proof.
  intros Hne Hall.
  destruct (digits_val_bound s Hall 0) as (v & Hv & Hb); [lia|].
  exists v. split; [assumption|]. split; [lia|].
  destruct s as [|a s]; [contradiction|].
  unfold strconv_Atoi.
  cbn [Str.all] in Hall. apply andb_true_iff in Hall as [Ha _].
  destruct (Ascii.eqb_spec a "-") as [->|_]; [discriminate Ha|].
  destruct (Ascii.eqb_spec a "+") as [->|_]; [discriminate Ha|].
  rewrite Hv.
  assert (Hmin : (minInt <=? v) = true)
    by (apply Z.leb_le; unfold minInt, intSize; lia).
  now rewrite Hmin.
Qed.

(** X8: a line the parser accepts is, in this order, the file name, the
    line and the column in digits behind colons, white space, the owner
    package, white space, the referenced package, white space, [local]
    when the flag is set, the token of the kind, [+] when the definition
    flag is set, and the type text behind white space when there is one;
    the offset is zero, the expression is empty, the numbers fit an [int]
    and the kind is one of the four the tool names. *)
Theorem parseSymLine_sound (line : string) (l : symLine) :
  parseSymLine line = Ret (l, None) ->
  exists ln col sp1 sp2 sp3 tail,
    line = Filename (pos l) ++ ":" ++ ln ++ ":" ++ col ++ ":" ++ sp1
           ++ exprPkg l ++ sp2 ++ referPkg l ++ sp3
           ++ (if local l then "local" else "") ++ ObjKind_String (kind l)
           ++ (if definition l then "+" else "") ++ tail /\
    (Filename (pos l) <> "" /\ Str.all not_colon (Filename (pos l)) = true) /\
    (ln <> "" /\ Str.all is_digit ln = true /\ digits_val 0 ln = Some (Line (pos l))) /\
    (col <> "" /\ Str.all is_digit col = true /\ digits_val 0 col = Some (Column (pos l))) /\
    (sp1 <> "" /\ Str.all is_space sp1 = true) /\
    (exprPkg l <> "" /\ Str.all (fun a => negb (is_blank a)) (exprPkg l) = true) /\
    (sp2 <> "" /\ Str.all is_space sp2 = true) /\
    (referPkg l <> "" /\ Str.all no_space (referPkg l) = true) /\
    (sp3 <> "" /\ Str.all is_space sp3 = true) /\
    type_tail tail (exprType l) /\
    Offset (pos l) = 0 /\
    0 <= Line (pos l) <= maxInt /\
    0 <= Column (pos l) <= maxInt /\
    In (kind l) [Con; Typ; Var; Fun] /\
    expr l = "".
Proof.
  unfold parseSymLine, atoi.
  destruct (FindStringSubmatch linePat line) as [m|] eqn:Hm; [|discriminate].
  destruct (linePat_groups_sound line m Hm)
    as (sp1 & sp2 & sp3 & tail & Hline & Hg1 & (Hg2 & Hg2') & (Hg3 & Hg3') & Hs1
        & Hg4 & Hs2 & Hg5 & Hs3 & Hg6 & Hg7 & Hg8 & Hty).
  destruct (strconv_Atoi_digits _ Hg2 Hg2') as (v2 & Hv2 & Hp2 & ->).
  destruct (strconv_Atoi_digits _ Hg3 Hg3') as (v3 & Hv3 & Hp3 & ->).
  destruct (Z.leb_spec v2 maxInt) as [Hm2|]; [|discriminate].
  destruct (Z.leb_spec v3 maxInt) as [Hm3|]; [|discriminate].
  cbn [bind].
  destruct (objKinds (group m 7)) as [k|] eqn:Ek; [|discriminate].
  intros [= <-]. cbn [pos exprPkg referPkg local kind definition expr exprType
                      Filename Offset Line Column].
  exists (group m 2), (group m 3), sp1, sp2, sp3, tail.
  assert (Hk : group m 7 = ObjKind_String k /\ In k [Con; Typ; Var; Fun]).
  { pose proof (objKinds_range _ _ Ek) as Hr. split; [|assumption].
    apply objKinds_Some in Ek.
    destruct Ek as [[-> ->]|[[-> ->]|[[-> ->]|[-> ->]]]]; reflexivity. }
  destruct Hk as [Hk Hkr].
  split.
  - rewrite Hline at 1. rewrite Hk.
    destruct Hg6 as [->| ->], Hg8 as [->| ->]; reflexivity.
  - repeat (split; [solve [auto] |]). repeat split; auto; lia.
Qed.

Lemma parseSymLine_sound_witness :
  exists ln col sp1 sp2 sp3 tail,
    "a.go:10:2: p  q localfunc+ int"
    = "a.go" ++ ":" ++ ln ++ ":" ++ col ++ ":" ++ sp1 ++ "p" ++ sp2 ++ "q" ++ sp3
      ++ "local" ++ "func" ++ "+" ++ tail.
Proof.
  destruct (parseSymLine_sound "a.go:10:2: p  q localfunc+ int"
              (mkSymLine (mkPosition "a.go" 0 10 2) "p" "q" true Fun true "" "int")
              eq_refl)
    as (ln & col & sp1 & sp2 & sp3 & tail & H & _).
  exists ln, col, sp1, sp2, sp3, tail. exact H.
Defined.

(** X9: the parser panics exactly on a line of the pattern's shape whose
    line or column number is beyond the largest [int]; the panic is "bad
    number". *)
Theorem parseSymLine_panics (line : string) (msg : string) :
  parseSymLine line = Panic msg <->
  msg = "bad number" /\
  exists m v2 v3,
    FindStringSubmatch linePat line = Some m /\
    digits_val 0 (group m 2) = Some v2 /\
    digits_val 0 (group m 3) = Some v3 /\
    (maxInt < v2 \/ maxInt < v3).
Proof.
  assert (Hcases : forall m, FindStringSubmatch linePat line = Some m ->
    exists v2 v3,
      digits_val 0 (group m 2) = Some v2 /\ digits_val 0 (group m 3) = Some v3 /\
      strconv_Atoi (group m 2) = (if v2 <=? maxInt then Some v2 else None) /\
      strconv_Atoi (group m 3) = (if v3 <=? maxInt then Some v3 else None)).
  { intros m Hm.
    destruct (linePat_groups_sound line m Hm)
      as (_ & _ & _ & _ & _ & _ & (Hg2 & Hg2') & (Hg3 & Hg3') & _).
    destruct (strconv_Atoi_digits _ Hg2 Hg2') as (v2 & Hv2 & _ & Ha2).
    destruct (strconv_Atoi_digits _ Hg3 Hg3') as (v3 & Hv3 & _ & Ha3).
    exists v2, v3. auto. }
  split.
  - unfold parseSymLine, atoi.
    destruct (FindStringSubmatch linePat line) as [m|] eqn:Hm; [|discriminate].
    destruct (Hcases m eq_refl) as (v2 & v3 & Hv2 & Hv3 & -> & ->).
    destruct (Z.leb_spec v2 maxInt) as [Hm2|Hm2].
    + destruct (Z.leb_spec v3 maxInt) as [Hm3|Hm3]; cbn [bind].
      * destruct (objKinds (group m 7)); discriminate.
      * intros [= <-]. split; [reflexivity|]. exists m, v2, v3. auto.
    + cbn [bind]. intros [= <-]. split; [reflexivity|]. exists m, v2, v3. auto.
  - intros (-> & m & v2 & v3 & Hm & Hv2 & Hv3 & Hbig).
    unfold parseSymLine, atoi. rewrite Hm.
    destruct (Hcases m Hm) as (v2' & v3' & Hv2' & Hv3' & -> & ->).
    rewrite Hv2 in Hv2'. rewrite Hv3 in Hv3'.
    injection Hv2' as <-. injection Hv3' as <-.
    destruct (Z.leb_spec v2 maxInt) as [Hm2|Hm2]; [|reflexivity].
    destruct (Z.leb_spec v3 maxInt) as [Hm3|Hm3]; [lia | reflexivity].
Qed.


(** ** The package cache *)

Section ImporterFacts.

Variable Package : Type.
Variable DefaultImporter : string -> option Package.

Lemma cache_inv_new : cache_inv Package DefaultImporter [] (newContext Package).
Proof.
  repeat split; try (intros; discriminate); try contradiction.
  intros p. cbn. now destruct (DefaultImporter p).
Qed.

Lemma cache_inv_importer hist c path :
  cache_inv Package DefaultImporter hist c ->
  fst (importer Package DefaultImporter c path) = DefaultImporter path /\
  cache_inv Package DefaultImporter (hist ++ [path]) (snd (importer Package DefaultImporter c path)).
Proof.
  intros (Ha & Hb & Hc). unfold importer.
  destruct (cache_get Package (pkgCache Package c) path) as [pkg|] eqn:E.
  - destruct (Ha _ _ E) as [Hd Hin]. cbn [fst snd]. split; [now rewrite Hd|].
    split; [|split].
    + intros p pkg' Hp. destruct (Ha _ _ Hp). split; [assumption|].
      apply in_or_app; auto.
    + intros p Hp. apply in_app_or in Hp as [Hp|[<-|[]]]; [auto|].
      now rewrite E, Hd.
    + intros p. rewrite Hc. destruct (DefaultImporter p) eqn:Ed.
      * destruct (in_dec string_dec p hist) as [i|n],
          (in_dec string_dec p (hist ++ [path])) as [i'|n']; try reflexivity.
        -- exfalso. apply n'. apply in_or_app; auto.
        -- exfalso. apply in_app_or in i' as [?|[<-|[]]]; contradiction.
      * rewrite count_occ_app. cbn.
        destruct (string_dec path p) as [<-|]; [congruence | lia].
  - cbn [fst snd]. split; [reflexivity|].
    unfold cache_inv. cbn [pkgCache imported].
    split; [|split].
    + intros p pkg'. cbn [cache_get].
      destruct (String.eqb_spec path p) as [<-|Hne].
      * intros Hp. split; [assumption|]. apply in_or_app; cbn; auto.
      * intros Hp. destruct (Ha _ _ Hp). split; [assumption|].
        apply in_or_app; auto.
    + intros p Hp. cbn [cache_get].
      destruct (String.eqb_spec path p) as [<-|Hne]; [reflexivity|].
      apply in_app_or in Hp as [Hp|[<-|[]]]; [auto | contradiction].
    + intros p. rewrite count_occ_app, Hc. cbn [count_occ].
      destruct (string_dec path p) as [<-|Hne].
      * destruct (DefaultImporter path) eqn:Ed.
        -- destruct (in_dec string_dec path hist) as [i|n].
           ++ rewrite (Hb _ i), Ed in E. discriminate.
           ++ destruct (in_dec string_dec path (hist ++ [path])) as [i'|n'];
                [reflexivity|].
              exfalso. apply n'. apply in_or_app; cbn; auto.
        -- rewrite count_occ_app. cbn.
           destruct (string_dec path path); [lia | contradiction].
      * destruct (DefaultImporter p) eqn:Ed.
        -- destruct (in_dec string_dec p hist) as [i|n],
             (in_dec string_dec p (hist ++ [path])) as [i'|n']; try (cbn; lia).
           ++ exfalso. apply n'. apply in_or_app; auto.
           ++ exfalso. apply in_app_or in i' as [?|[?|[]]]; contradiction.
        -- rewrite count_occ_app. cbn.
           destruct (string_dec path p); [contradiction | lia].
Qed.

Lemma cache_inv_imports paths :
  forall hist c,
    cache_inv Package DefaultImporter hist c ->
    fst (imports Package DefaultImporter c paths) = map DefaultImporter paths /\
    cache_inv Package DefaultImporter (hist ++ paths) (snd (imports Package DefaultImporter c paths)).
Proof.
  induction paths as [|p ps IH]; intros hist c Hinv; cbn [imports map].
  - rewrite List.app_nil_r. auto.
  - destruct (cache_inv_importer hist c p Hinv) as [Hr Hinv'].
    destruct (importer Package DefaultImporter c p) as [pkg c1]. cbn [fst snd] in *.
    destruct (IH _ _ Hinv') as [Hrs Hinv''].
    destruct (imports Package DefaultImporter c1 ps) as [pkgs c2]. cbn [fst snd] in *.
    rewrite <- List.app_assoc in Hinv''. split; [now rewrite Hr, Hrs | assumption].
Qed.

(** X10: whatever was imported before, the importer returns for a path
    the package [types.DefaultImporter] gives for it: the cache does not
    show. *)
Theorem importer_transparent (paths : list string) (path : string) :
  fst (imports Package DefaultImporter (newContext Package) paths)
    = map DefaultImporter paths /\
  fst (importer Package DefaultImporter
         (snd (imports Package DefaultImporter (newContext Package) paths)) path)
    = DefaultImporter path.
Proof.
  destruct (cache_inv_imports paths [] _ cache_inv_new) as [Hrs Hinv].
  split; [assumption|]. now apply (cache_inv_importer _ _ path Hinv).
Qed.

(** X11: after the paths were imported, [types.DefaultImporter] has been
    called exactly once for each of them that it resolves, and once more
    at every request for a path that it does not resolve: a nil package
    is stored, but it is asked for again. *)
Theorem importer_calls (paths : list string) (p : string) :
  count_occ string_dec
    (imported Package
       (snd (imports Package DefaultImporter (newContext Package) paths))) p
  = match DefaultImporter p with
    | Some _ => if in_dec string_dec p paths then 1%nat else 0%nat
    | None => count_occ string_dec paths p
    end.
Proof.
  destruct (cache_inv_imports paths [] _ cache_inv_new) as [_ (_ & _ & Hc)].
  apply Hc.
Qed.

End ImporterFacts.


(** ** What a traversal reaches *)

Lemma dot_imports_list ns :
  (fix any (ns : list Node) : bool :=
     match ns with
     | [] => false
     | n' :: ns' => dot_imports n' || any ns'
     end) ns = existsb dot_imports ns.
Proof. induction ns as [|n ns IH]; [reflexivity|]. cbn [existsb]. now rewrite <- IH. Qed.

Lemma resolved_list ns :
  (fix all (ns : list Node) : list Node :=
     match ns with
     | [] => []
     | n' :: ns' => (resolved n' ++ all ns')%list
     end) ns = flat_map resolved ns.
Proof. induction ns as [|n ns IH]; [reflexivity|]. cbn [flat_map]. now rewrite <- IH. Qed.

Lemma dot_imports_File name decls :
  dot_imports (File name decls) = existsb dot_imports decls.
Proof. apply dot_imports_list. Qed.

Lemma dot_imports_OtherNode children :
  dot_imports (OtherNode children) = existsb dot_imports children.
Proof. apply dot_imports_list. Qed.

Lemma dot_imports_FuncType ps rs :
  dot_imports (FuncType ps rs) = existsb dot_imports ps || existsb dot_imports rs.
Proof. rewrite <- !dot_imports_list. reflexivity. Qed.

Lemma resolved_File name decls :
  resolved (File name decls) = flat_map resolved decls.
Proof. apply resolved_list. Qed.

Lemma resolved_OtherNode children :
  resolved (OtherNode children) = flat_map resolved children.
Proof. apply resolved_list. Qed.

Lemma resolved_FuncType ps rs :
  resolved (FuncType ps rs) = (flat_map resolved ps ++ flat_map resolved rs)%list.
Proof. rewrite <- !resolved_list. reflexivity. Qed.

Section Reach.

Context {C : Collaborators}.
Variable visitf : symInfo -> bool.

(** The occurrence does not depend on the callback. *)
Lemma assign_ok_reported e st :
  assign_ok visitf e false st =
  mkW (fst (visitExpr visitf e false)) (calls st ++ reported e)%list.
Proof.
  unfold assign_ok, reported, visitExpr.
  destruct (ExprType e) as [[o|] t]; reflexivity.
Qed.

Lemma visitExpr_true e :
  (forall info, visitf info = true) -> fst (visitExpr visitf e false) = true.
Proof.
  intros Ht. unfold visitExpr. destruct (ExprType e) as [[o|] t]; [apply Ht | reflexivity].
Qed.

Lemma wstate_eta st : ok st = true -> st = mkW true (calls st ++ [])%list.
Proof. destruct st as [b cs]. cbn. intros ->. now rewrite List.app_nil_r. Qed.

Section AlwaysTrue.

Hypothesis visitf_true : forall info, visitf info = true.

Lemma walks_resolved ns :
  Forall (fun n => forall st, ok st = true -> dot_imports n = false ->
    walk visitf n st = mkW true (calls st ++ flat_map reported (resolved n))%list) ns ->
  forall st, ok st = true -> existsb dot_imports ns = false ->
    walks visitf ns st
    = mkW true (calls st ++ flat_map reported (flat_map resolved ns))%list.
Proof.
  induction 1 as [|n ns Hn _ IH]; intros st Hok Hd.
  - now apply wstate_eta.
  - cbn [existsb] in Hd. apply orb_false_iff in Hd as [Hd1 Hd2].
    cbn [walks flat_map]. rewrite (Hn st Hok Hd1).
    rewrite IH by (reflexivity || assumption).
    cbn [calls]. now rewrite flat_map_app, List.app_assoc.
Qed.

Lemma walk_resolved n :
  forall st, ok st = true -> dot_imports n = false ->
    walk visitf n st = mkW true (calls st ++ flat_map reported (resolved n))%list.
Proof.
  induction n using Node_induction; intros st Hok Hd.
  - cbn [walk]. rewrite Hok. cbn [negb].
    rewrite assign_ok_reported, visitExpr_true by assumption.
    cbn [resolved flat_map]. now rewrite List.app_nil_r.
  - cbn [walk]. rewrite Hok. cbn [negb].
    rewrite assign_ok_reported, visitExpr_true by assumption.
    rewrite (IHn st Hok Hd). cbn [calls resolved].
    rewrite flat_map_app. cbn [flat_map].
    now rewrite List.app_nil_r, List.app_assoc.
  - cbn [walk]. rewrite Hok. cbn [negb]. now apply IHn2.
  - cbn [walk]. rewrite Hok. cbn [negb]. now apply IHn.
  - cbn [dot_imports] in Hd. cbn [walk resolved]. rewrite Hok, Hd. cbn [negb].
    destruct name as [id|]; [|now apply wstate_eta].
    rewrite assign_ok_reported, visitExpr_true by assumption.
    cbn [flat_map]. now rewrite List.app_nil_r.
  - rewrite dot_imports_FuncType in Hd. apply orb_false_iff in Hd as [Hd1 Hd2].
    rewrite walk_FuncType, resolved_FuncType, Hok. cbn [negb].
    rewrite (walks_resolved ps H st Hok Hd1).
    rewrite (walks_resolved rs H0) by (reflexivity || assumption).
    cbn [calls]. now rewrite flat_map_app, List.app_assoc.
  - cbn [dot_imports] in Hd.
    apply orb_false_iff in Hd as [Hd Hd3]. apply orb_false_iff in Hd as [Hd1 Hd2].
    cbn [walk resolved]. rewrite Hok. cbn [negb].
    set (st1 := match recv with Some r => walk visitf r st | None => st end).
    assert (E1 : st1 = mkW true
      (calls st ++ flat_map reported
         (match recv with Some r => resolved r | None => [] end))%list).
    { subst st1. destruct recv as [r|]; [now apply (H r eq_refl) | now apply wstate_eta]. }
    rewrite E1. cbn [ok negb].
    rewrite assign_ok_reported, visitExpr_true by assumption. cbn [calls].
    rewrite IHn by (reflexivity || assumption). cbn [calls].
    set (st3 := mkW true _).
    assert (E3 : match body with Some b => walk visitf b st3 | None => st3 end
      = mkW true (calls st3 ++ flat_map reported
          (match body with Some b => resolved b | None => [] end))%list).
    { destruct body as [b|]; [now apply (H0 b eq_refl) | now apply wstate_eta]. }
    rewrite E3. subst st3. cbn [calls].
    rewrite !flat_map_app. cbn [flat_map]. rewrite !flat_map_app.
    now rewrite <- !List.app_assoc.
  - rewrite dot_imports_File in Hd. rewrite walk_File, resolved_File, Hok. cbn [negb].
    now apply walks_resolved.
  - rewrite dot_imports_OtherNode in Hd.
    rewrite walk_OtherNode, resolved_OtherNode, Hok. cbn [negb].
    now apply walks_resolved.
Qed.

End AlwaysTrue.

Lemma reported_occurrences e :
  (exists id, e = Ident_ id) \/ (exists x sel, e = SelectorExpr x sel) ->
  Forall occurrence (reported e).
Proof.
  intros He. unfold reported, visitExpr.
  destruct (ExprType e) as [[o|] t] eqn:Et; cbn [snd]; [|constructor].
  constructor; [|constructor].
  exists o.
  destruct (same_object (Universe_Lookup (Obj_Name o)) (Some o)) eqn:Eu;
    cbn [negb Info.expr Info.exprType Info.referObj Info.local Info.pos
         Info.universe Info.referPos];
    (repeat split; try assumption;
     destruct He as [(id & ->)|(x & sel & ->)]; [left | right]; eauto).
Qed.

Lemma assign_ok_occurrences e st :
  (exists id, e = Ident_ id) \/ (exists x sel, e = SelectorExpr x sel) ->
  Forall occurrence (calls st) ->
  Forall occurrence (calls (assign_ok visitf e false st)).
Proof.
  intros He Hst. rewrite assign_ok_reported. cbn [calls].
  apply Forall_app. split; [assumption | now apply reported_occurrences].
Qed.

Lemma walks_occurrences ns :
  Forall (fun n => forall st, Forall occurrence (calls st) ->
    Forall occurrence (calls (walk visitf n st))) ns ->
  forall st, Forall occurrence (calls st) ->
    Forall occurrence (calls (walks visitf ns st)).
Proof.
  induction 1 as [|n ns Hn _ IH]; intros st Hst; cbn [walks]; [assumption|].
  apply IH. now apply Hn.
Qed.

(** Every occurrence the callback receives was built by [visitExpr] for
    an identifier or a selector. *)
Lemma walk_occurrences n :
  forall st, Forall occurrence (calls st) ->
    Forall occurrence (calls (walk visitf n st)).
Proof.
  induction n using Node_induction; intros st Hst.
  - cbn [walk]. destruct (negb (ok st)); [assumption|].
    apply assign_ok_occurrences; eauto.
  - cbn [walk]. destruct (negb (ok st)); [assumption|].
    apply assign_ok_occurrences; eauto.
  - cbn [walk]. destruct (negb (ok st)); [assumption | now apply IHn2].
  - cbn [walk]. destruct (negb (ok st)); [assumption | now apply IHn].
  - cbn [walk]. destruct (negb (ok st)); [assumption|].
    destruct (is_dot name); [assumption|].
    destruct name as [id|]; [|assumption].
    apply assign_ok_occurrences; eauto.
  - rewrite walk_FuncType. destruct (negb (ok st)); [assumption|].
    apply (walks_occurrences rs H0). now apply (walks_occurrences ps H).
  - cbn [walk]. destruct (negb (ok st)); [assumption|].
    set (st1 := match recv with Some r => walk visitf r st | None => st end).
    assert (H1 : Forall occurrence (calls st1)).
    { subst st1. destruct recv as [r|]; [now apply (H r eq_refl) | assumption]. }
    set (st2 := if negb (ok st1) then st1 else assign_ok visitf _ false st1).
    assert (H2 : Forall occurrence (calls st2)).
    { subst st2. destruct (negb (ok st1)); [assumption|].
      apply assign_ok_occurrences; eauto. }
    destruct body as [b|]; [apply (H0 b eq_refl)|]; now apply IHn.
  - rewrite walk_File. destruct (negb (ok st)); [assumption|].
    now apply walks_occurrences.
  - rewrite walk_OtherNode. destruct (negb (ok st)); [assumption|].
    now apply walks_occurrences.
Qed.

Lemma visitExprs_occurrences importPath pkg kindMask info :
  In info (visitExprs visitf importPath pkg kindMask) -> occurrence info.
Proof.
  unfold visitExprs. revert info. apply Forall_forall.
  apply walk_occurrences. constructor.
Qed.

(** X12: every occurrence the traversal of a file hands to the callback
    is one [visitExpr] built: its expression is an identifier or a
    selector that resolves to the object and the type of the occurrence,
    it is never local, and it either refers to the predeclared object of
    its name or carries the position of the declaration. *)
Theorem reported_occurrence (importPath : string) (pkg : Node) (kindMask : Z)
    (info : symInfo) :
  In info (visitExprs visitf importPath pkg kindMask) ->
  exists o,
    ExprType (Info.expr info) = (Some o, Info.exprType info) /\
    Info.referObj info = Some o /\
    Info.local info = false /\
    ((exists id, Info.expr info = Ident_ id /\ Info.pos info = NamePos id) \/
     (exists x sel, Info.expr info = SelectorExpr x sel /\ Info.pos info = NamePos sel)) /\
    Info.universe info = same_object (Universe_Lookup (Obj_Name o)) (Some o) /\
    Info.referPos info = (if Info.universe info then 0 else DeclPos o).
Proof. apply visitExprs_occurrences. Qed.

(** X13: on an occurrence the traversal reports, [visitPrint] never
    dereferences a nil object: it panics only where
    [positionToImportPath] does, and otherwise answers true, so that as
    the callback it never stops the traversal; a line it prints is not
    local and has the kind of the object the expression resolves to. *)
Theorem visitPrint_reported (importPath : string) (pkg : Node) (kindMask : Z)
    (info : symInfo) (mask : Z) :
  In info (visitExprs visitf importPath pkg kindMask) ->
  (forall b o, visitPrint info mask = Ret (b, o) ->
     b = true /\
     forall line, o = Some line ->
       local line = false /\
       option_map Obj_Kind (fst (ExprType (Info.expr info))) = Some (kind line))
  /\
  (forall msg, visitPrint info mask = Panic msg ->
     msg = "empty file name" \/ msg = "cannot reverse-map filename to package").
Proof.
  intros Hin. apply visitExprs_occurrences in Hin as (o & Ht & Ho & Hl & _).
  assert (Hpanic : forall p msg, positionToImportPath p = Panic msg ->
    msg = "empty file name" \/ msg = "cannot reverse-map filename to package").
  { intros p msg. unfold positionToImportPath.
    destruct (String.eqb (Filename p) ""); [intros [= <-]; auto|].
    destruct (build_Import (Filename p)); [discriminate | intros [= <-]; auto]. }
  unfold visitPrint. rewrite Ho, Hl, Ht. cbn [fst option_map].
  destruct (_ =? 0).
  { split; [intros b l [= <- <-]; split; [reflexivity | discriminate] | discriminate]. }
  destruct (Info.universe info && negb all).
  { split; [intros b l [= <- <-]; split; [reflexivity | discriminate] | discriminate]. }
  destruct (positionToImportPath (position (Info.pos info))) as [ep|m1] eqn:E1; cbn [bind].
  2:{ split; [discriminate | intros msg [= <-]; eapply Hpanic; eassumption]. }
  destruct (if Info.universe info then Ret "universe" else _) as [rp|m2] eqn:E2; cbn [bind].
  2:{ split; [discriminate|]. intros msg [= <-].
      destruct (Info.universe info); [discriminate | eapply Hpanic; eassumption]. }
  destruct (exprName (Info.expr info)) as [name|].
  - split; [|discriminate]. intros b l [= <- <-]. split; [reflexivity|].
    intros line [= <-]. split; reflexivity.
  - split; [intros b l [= <- <-]; split; [reflexivity | discriminate] | discriminate].
Qed.

(** X14: when the callback never answers false and the traversal meets
    no import to [.], the flag stays set and the callback receives
    exactly the occurrences of the expressions of [resolved] that
    resolve, in that order: the stateful traversal is a plain
    collection. *)
Theorem traversal_collects (importPath : string) (pkg : Node) (kindMask : Z) :
  (forall info, visitf info = true) ->
  dot_imports pkg = false ->
  visitExprs visitf importPath pkg kindMask = flat_map reported (resolved pkg) /\
  forall st, ok st = true ->
    walk visitf pkg st = mkW true (calls st ++ flat_map reported (resolved pkg))%list.
Proof.
  intros Ht Hd. split.
  - unfold visitExprs. now rewrite (walk_resolved Ht pkg (mkW true [])).
  - intros st Hok. now apply walk_resolved.
Qed.

Lemma resolved_chain id sels :
  resolved (fold_left SelectorExpr sels (Ident_ id)) =
  map (fun k => fold_left SelectorExpr (firstn k sels) (Ident_ id))
    (seq 0 (S (List.length sels))).
Proof.
  induction sels as [|s l IH] using rev_ind; [reflexivity|].
  rewrite fold_left_app. cbn [fold_left resolved]. rewrite IH.
  rewrite List.length_app. cbn [List.length]. rewrite Nat.add_1_r.
  rewrite (seq_S (S (List.length l))), map_app. cbn [map Nat.add].
  f_equal.
  - apply map_ext_in. intros k Hk. apply in_seq in Hk.
    rewrite firstn_app.
    replace (k - List.length l)%nat with 0%nat by lia.
    cbn [firstn]. now rewrite List.app_nil_r.
  - rewrite firstn_all2 by (rewrite List.length_app; cbn; lia).
    now rewrite fold_left_app.
Qed.

(** X15: an answer false of the callback does not stop the traversal of
    a selector [x.f.g...]: whatever the callback answers, the identifier
    and then every selector of the chain is resolved and reported, and
    the flag is left as the answer for the whole chain. *)
Theorem selector_chain_reported (id : Ident) (sels : list Ident) (st : wstate) :
  ok st = true ->
  walk visitf (fold_left SelectorExpr sels (Ident_ id)) st =
    mkW (fst (visitExpr visitf (fold_left SelectorExpr sels (Ident_ id)) false))
        (calls st ++
         flat_map reported
           (map (fun k => fold_left SelectorExpr (firstn k sels) (Ident_ id))
              (seq 0 (S (List.length sels)))))%list.
Proof.
  intros Hok. rewrite <- resolved_chain.
  induction sels as [|s l IH] using rev_ind.
  - cbn [fold_left walk]. rewrite Hok. cbn [negb].
    rewrite assign_ok_reported. cbn [resolved flat_map].
    now rewrite List.app_nil_r.
  - rewrite fold_left_app. cbn [fold_left walk]. rewrite Hok. cbn [negb].
    rewrite assign_ok_reported, IH. cbn [calls resolved].
    rewrite flat_map_app. cbn [flat_map].
    now rewrite List.app_nil_r, List.app_assoc.
Qed.

End Reach.

Lemma reported_occurrence_witness :
  In info_y (visitExprs (C := demo) (fun _ => true) "p" file_plain 60) /\
  exists o,
    @ExprType demo (Info.expr info_y) = (Some o, Info.exprType info_y) /\
    Info.referObj info_y = Some o /\
    Info.local info_y = false /\
    ((exists id, Info.expr info_y = Ident_ id /\ Info.pos info_y = NamePos id) \/
     (exists x sel,
        Info.expr info_y = SelectorExpr x sel /\ Info.pos info_y = NamePos sel)) /\
    Info.universe info_y = same_object (@Universe_Lookup demo (Obj_Name o)) (Some o) /\
    Info.referPos info_y = (if Info.universe info_y then 0 else @DeclPos demo o).
Proof.
  split; [left; reflexivity|].
  apply (reported_occurrence (C := demo) (fun _ => true) "p" file_plain 60 info_y).
  left; reflexivity.
Defined.

Lemma visitPrint_reported_witness :
  In info_y (visitExprs (C := demo) (fun _ => true) "p" file_plain 60) /\
  forall b o, visitPrint (C := demo) info_y 16 = Ret (b, o) -> b = true.
Proof.
  split; [left; reflexivity|].
  intros b o H.
  apply (proj1 (visitPrint_reported (C := demo) (fun _ => true) "p" file_plain 60
                  info_y 16 (or_introl eq_refl)) b o H).
Defined.

Lemma traversal_collects_witness :
  visitExprs (C := demo) (fun _ => true) "p" file_plain 60
  = flat_map (reported (C := demo)) (resolved file_plain).
Proof.
  apply (traversal_collects (C := demo) (fun _ => true) "p" file_plain 60);
    reflexivity.
Defined.

Lemma selector_chain_reported_witness :
  walk (C := demo) (fun _ => false)
    (fold_left SelectorExpr [mkIdent 12 "f" None; mkIdent 14 "g" None] (Ident_ x_ident))
    (mkW true [])
  = mkW true
      [Info.mk 10 (Ident_ x_ident) (mkType (Some (StarExpr T_node)) Var)
         3 (Some x_obj) false false].
Proof.
  apply (selector_chain_reported (C := demo) (fun _ => false) x_ident
           [mkIdent 12 "f" None; mkIdent 14 "g" None] (mkW true []) eq_refl).
Defined.
